(** * The RBF-FD wave-equation demo [docs/scripts/fd.f.py]

    A shallow embedding of the script: its set-up (node classification,
    ghost nodes, differentiation matrices, initial state), the
    time-derivative evaluator [f] and the integration loop.

    Floating-point numbers are replaced by the elements of a commutative
    ring (exact arithmetic); NumPy arrays are lists; a Python exception
    is a value of [result].  The routines of the libraries the script
    imports ([menodes], [neighbors], [simplex_outward_normals],
    [weight_matrix], [spsolve], the [ode] integrator) are the fields of a
    class, and what the proofs need from them is stated as contracts. *)

From Stdlib Require Import ZArith Ring Field QArith Qround Qcanon Sorted.
From stdpp Require Import base tactics list gmap.

(** ** Exceptions *)

Inductive exn : Set :=
| ValueError   (* shape or size mismatch *)
| IndexError   (* index out of bounds *)
| TypeError    (* an operand of the wrong kind, or a name that is not bound *)
| LibraryError (* any failure raised inside an imported routine *).

Inductive result (A : Type) : Type :=
| Ok (a : A)
| Raise (e : exn).
Arguments Ok {A} a.
Arguments Raise {A} e.

Global Instance exn_eq_dec : EqDecision exn.
Proof. solve_decision. Defined.
Global Instance result_eq_dec {A} `{EqDecision A} : EqDecision (result A).
Proof. solve_decision. Defined.

Global Instance result_ret : MRet result := fun A a => Ok a.
Global Instance result_bind : MBind result := fun A B k m =>
  match m with
  | Ok a => k a
  | Raise e => Raise e
  end.

(** ** Scalars

    The operations the script performs on array entries.  [rlit] reads a
    decimal literal of the source ([0.5], [0.05], [2.0]); [rleb] is the
    comparison behind [np.min]. *)

Class Scalar := {
  R : Type;
  r0 : R;
  r1 : R;
  radd : R -> R -> R;
  rmul : R -> R -> R;
  rsub : R -> R -> R;
  ropp : R -> R;
  rdiv : R -> R -> R;
  rsqrt : R -> R;
  rlit : Q -> R;
  rleb : R -> R -> bool
}.

(** Exact arithmetic: the entries form a commutative ring. *)
Class ExactArith `{Scalar} := {
  scalar_ring : ring_theory r0 r1 radd rmul rsub ropp (@eq R)
}.

(** The comparison is a total pre-order (no NaN). *)
Class TotalOrder `{Scalar} := {
  rleb_total : forall a b : R, rleb a b = true \/ rleb b a = true;
  rleb_trans : forall a b c : R, rleb a b = true -> rleb b c = true -> rleb a c = true
}.

Section Numpy.
Context `{Scalar}.

(** ** One-dimensional arrays *)

Definition np_zeros (n : nat) : list R := replicate n r0.

(** [np.empty n]: [n] entries of uninitialised memory, whose contents are
    given by [junk]. *)
Definition np_empty (junk : nat -> R) (n : nat) : list R := map junk (seq 0 n).

Definition np_hstack (a b : list R) : list R := a ++ b.

(** [v.reshape((2,-1))]: the two rows of the reshaped array. *)
Definition reshape2 (v : list R) : result (list R * list R) :=
  if Nat.even (length v)
  then Ok (take (length v / 2) v, drop (length v / 2) v)
  else Raise ValueError.

(** [a[idx]] for a list of indices (no index is negative here). *)
Fixpoint np_take {A} (a : list A) (idx : list nat) : result (list A) :=
  match idx with
  | [] => Ok []
  | i :: idx' =>
      match a !! i with
      | Some x => xs ← np_take a idx'; Ok (x :: xs)
      | None => Raise IndexError
      end
  end.

(** [a[i]] for a Python integer: a negative index counts from the end. *)
Definition py_index {A} (a : list A) (i : Z) : result A :=
  let n := Z.of_nat (length a) in
  let j := if (i <? 0)%Z then (i + n)%Z else i in
  if ((0 <=? j) && (j <? n))%Z
  then match a !! Z.to_nat j with Some x => Ok x | None => Raise IndexError end
  else Raise IndexError.

Fixpoint np_take_Z {A} (a : list A) (idx : list Z) : result (list A) :=
  match idx with
  | [] => Ok []
  | i :: idx' => x ← py_index a i; xs ← np_take_Z a idx'; Ok (x :: xs)
  end.

(** [a[idx] = vals], the assignments done in order. *)
Fixpoint put_all {A} (a : list A) (iv : list (nat * A)) : result (list A) :=
  match iv with
  | [] => Ok a
  | (i, x) :: iv' =>
      if decide (i < length a) then put_all (<[i:=x]> a) iv' else Raise IndexError
  end.

Definition np_put {A} (a : list A) (idx : list nat) (vals : list A) : result (list A) :=
  if decide (length vals = length idx) then put_all a (zip idx vals)
  else match vals with
       | [x] => put_all a (zip idx (replicate (length idx) x))
       | _ => Raise ValueError
       end.

(** Element-wise binary operation with NumPy's broadcasting of a
    one-element operand. *)
Definition np_zip_with (op : R -> R -> R) (a b : list R) : result (list R) :=
  if decide (length a = length b) then Ok (zip_with op a b)
  else match a, b with
       | [x], _ => Ok (map (op x) b)
       | _, [y] => Ok (map (fun x => op x y) a)
       | _, _ => Raise ValueError
       end.

Definition np_sub := np_zip_with rsub.
Definition np_add := np_zip_with radd.
Definition np_scale (c : R) (a : list R) : list R := map (rmul c) a.

(** [np.min]. *)
Definition rmin (a b : R) : R := if rleb a b then a else b.
Definition np_min (a : list R) : result R :=
  match a with
  | [] => Raise ValueError
  | x :: a' => Ok (foldl rmin x a')
  end.

(** ** Sparse matrices, seen through their entries *)

Record matrix := Matrix {
  nrows : nat;
  ncols : nat;
  rows : list (list R)
}.

Definition wf_matrix (M : matrix) : Prop :=
  length (rows M) = nrows M /\ Forall (fun r => length r = ncols M) (rows M).

Definition dot (a b : list R) : R :=
  foldr (fun p acc => radd (rmul p.1 p.2) acc) r0 (zip a b).

(** [M.dot(x)] *)
Definition sp_dot (M : matrix) (x : list R) : result (list R) :=
  if decide (length x = ncols M)
  then Ok (map (fun r => dot r x) (rows M))
  else Raise ValueError.

(** [M[:,idx]] *)
Definition pick (r : list R) (idx : list nat) : list R :=
  map (fun j => default r0 (r !! j)) idx.

Definition sp_cols (M : matrix) (idx : list nat) : result matrix :=
  if forallb (fun j => j <? ncols M) idx
  then Ok (Matrix (nrows M) (length idx) (map (fun r => pick r idx) (rows M)))
  else Raise IndexError.

(** ** Arrays of points (shape (n,2)) *)

Definition point : Type := R * R.

Definition pt_add (p q : point) : point := (radd p.1 q.1, radd p.2 q.2).
Definition pt_scale (c : R) (p : point) : point := (rmul c p.1, rmul c p.2).

Definition np_scale2 (c : R) (a : list point) : list point := map (pt_scale c) a.

Definition np_add2 (a b : list point) : result (list point) :=
  if decide (length a = length b) then Ok (zip_with pt_add a b)
  else match a, b with
       | [x], _ => Ok (map (pt_add x) b)
       | _, [y] => Ok (map (fun x => pt_add x y) a)
       | _, _ => Raise ValueError
       end.

Definition np_vstack (a b : list point) : list point := a ++ b.

(** [np.nonzero(mask)[0].tolist()] *)
Fixpoint nonzero_from (k : nat) (mask : list bool) : list nat :=
  match mask with
  | [] => []
  | b :: mask' => (if b then [k] else []) ++ nonzero_from (S k) mask'
  end.
Definition np_nonzero (mask : list bool) : list nat := nonzero_from 0 mask.

(** [a[:,1]] of a two-dimensional array given by its rows. *)
Fixpoint column1 (a : list (list R)) : result (list R) :=
  match a with
  | [] => Ok []
  | r :: a' =>
      match r !! 1 with
      | Some x => xs ← column1 a'; Ok (x :: xs)
      | None => Raise IndexError
      end
  end.

End Numpy.

(** ** The imported routines *)

Class Externals `{Scalar} := {
  (** [rbf.nodes.menodes(N,vert,smp)]: the nodes and, for each node, the
      index of the boundary edge it lies on, or [-1] for an interior node. *)
  menodes : nat -> list point -> list (nat * nat) -> result (list point * list Z);
  (** [rbf.geometry.simplex_outward_normals(vert,smp)]: one normal per edge. *)
  simplex_outward_normals : list point -> list (nat * nat) -> result (list point);
  (** [rbf.nodes.neighbors(x,k)]: for each point its [k] nearest points
      (indices, distances), the point itself first. *)
  neighbors : list point -> nat -> result (list (list nat) * list (list R));
  (** [rbf.fd.weight_matrix(x,p,diffs,coeffs=None,n=...)] *)
  weight_matrix : list point -> list point -> list (nat * nat) ->
                  option (list (list R)) -> nat -> result matrix;
  (** [scipy.sparse.linalg.spsolve(A,b)] *)
  spsolve : matrix -> list R -> result (list R);
  (** [scipy.integrate.ode(rhs)] with the 'dopri5' integrator, one call of
      [integrate(t)]: from the integrator's current time and state to the
      time it reached and the state there.  SciPy stores both
      ([self._y, self.t = ...]); the time reached is the time asked only
      when the integration succeeded. *)
  ode_integrate : (R -> list R -> result (list R)) -> R * list R -> R ->
                  result (R * list R)
}.

Section Script.
Context `{Externals}.

Fixpoint rpow (x : R) (n : nat) : R :=
  match n with
  | 0 => r1
  | S n' => rmul x (rpow x n')
  end.

Definition rnat (n : nat) : R := rlit (inject_Z (Z.of_nat n)).

(** [np.linspace(start,stop,num)] *)
Definition np_linspace (start stop : R) (num : nat) : list R :=
  let step := rdiv (rsub stop start) (rnat (num - 1)) in
  let y := map (fun i => radd (rmul (rnat i) step) start) (seq 0 num) in
  if decide (1 < num) then <[num - 1 := stop]> y else y.

(** ** Lines 15-41: the set-up *)

Definition vert : list point :=
  [ (rlit 0, rlit 0); (rlit 2, rlit 0); (rlit 2, rlit 1);
    (rlit 1, rlit 1); (rlit 1, rlit 2); (rlit 0, rlit 2) ].

Definition smp : list (nat * nat) :=
  [ (0, 1); (1, 2); (2, 3); (3, 4); (4, 5); (5, 0) ].

Definition times : list R := np_linspace (rlit 0) (rlit 2) 5.

(** The module-level names the rest of the script reads. *)
Record globals := Globals {
  nodes : list point;
  smpid : list Z;
  interior : list nat;
  boundary : list nat;
  normals : list point;
  dx : R;
  ghost : list nat;
  D : matrix;
  dD : matrix;
  u_init : list R;
  dudt_init : list R;
  u_bnd : list R;
  v : list R
}.

(** [normals.T] *)
Definition transpose2 (a : list point) : list (list R) := [ a.*1; a.*2 ].

(** The script has [N = 50000]; the model takes [N] as an argument. *)
Definition setup (N : nat) : result globals :=
  '(nodes0, smpid) ← menodes N vert smp;
  let interior := np_nonzero (map (fun s => (s =? -1)%Z) smpid) in
  let boundary := np_nonzero (map (fun s => (0 <=? s)%Z) smpid) in
  edge_normals ← simplex_outward_normals vert smp;
  edges ← np_take smpid boundary;
  normals ← np_take_Z edge_normals edges;
  '(_, dist) ← neighbors nodes0 2;
  nearest ← column1 dist;
  dx ← np_min nearest;
  on_boundary ← np_take nodes0 boundary;
  shifted ← np_add2 on_boundary (np_scale2 (rmul (rlit (1#2)) dx) normals);
  let nodes := np_vstack nodes0 shifted in
  let ghost := seq N (length boundary) in
  targets ← np_take nodes (interior ++ boundary);
  D ← weight_matrix targets nodes [(2, 0); (0, 2)] None 30;
  btargets ← np_take nodes boundary;
  dD ← weight_matrix btargets nodes [(1, 0); (0, 1)] (Some (transpose2 normals)) 30;
  let r := map (fun p : point =>
                  rsqrt (radd (rpow (rsub p.1 (rlit (1#2))) 2)
                              (rpow (rsub p.2 (rlit (1#2))) 2))) targets in
  let u_init := map (fun ri => rdiv (rlit 1)
                                 (radd (rlit 1) (rpow (rdiv ri (rlit (1#20))) 4))) r in
  let dudt_init := np_zeros N in
  let u_bnd := np_zeros (length boundary) in
  Ok (Globals nodes smpid interior boundary normals dx ghost D dD
              u_init dudt_init u_bnd (np_hstack u_init dudt_init)).

(** ** Lines 43-57: the time-derivative evaluator *)

Section Evaluator.
Variable G : globals.

(** The right-hand side of line 55: the ghost values. *)
Definition ghost_values (v0 : list R) : result (list R) :=
  A ← sp_cols (dD G) (ghost G);
  K ← sp_cols (dD G) (interior G ++ boundary G);
  k ← sp_dot K v0;
  b ← np_sub (u_bnd G) k;
  spsolve A b.

(** Lines 50-55: the displacement at every node, ghost nodes included. *)
Definition displacement (junk : nat -> R) (v0 : list R) : result (list R) :=
  let u := np_empty junk (length (nodes G)) in
  u ← np_put u (interior G ++ boundary G) v0;
  g ← ghost_values v0;
  np_put u (ghost G) g.

Definition f (junk : nat -> R) (t : R) (v : list R) : result (list R) :=
  '(v0, v1) ← reshape2 v;
  u ← displacement junk v0;
  a ← sp_dot (D G) u;
  Ok (np_hstack v1 a).

(** ** Lines 59-66: the integration loop

    The integrator keeps its own time and state; each pass asks for the
    state at the next output time and saves the displacements of the
    state it gets.  The script never calls [successful()]: the time the
    integrator reached is kept in the integrator and not looked at. *)

Record loop_state := LoopState {
  integ_t : R;
  integ_y : list R;
  soln : list (list R)
}.

Definition loop_body (junk : nat -> R) (s : loop_state) (t : R) : result loop_state :=
  '(t', y) ← ode_integrate (f junk) (integ_t s, integ_y s) t;
  '(v0, _) ← reshape2 y;
  Ok (LoopState t' y (soln s ++ [v0])).

Fixpoint loop (junk : nat -> R) (s : loop_state) (ts : list R) : result loop_state :=
  match ts with
  | [] => Ok s
  | t :: ts' => s' ← loop_body junk s t; loop junk s' ts'
  end.

End Evaluator.

Definition integrate_all (G : globals) (junk : nat -> R) : result loop_state :=
  t0 ← py_index times 0;
  loop G junk (LoopState t0 (v G) []) (drop 1 times).

End Script.

(** * The evaluator on the object store

    The same function, with the objects it reads and writes held in a
    store: the module-level names are bound to locations, the state
    vector is passed by reference, [reshape] returns views of the buffer
    it is applied to, [np.empty] allocates, and an indexed assignment
    writes the buffer of its target.  The temporaries of an expression
    (new, immutable and never aliased) are values. *)

Section Store.
Context `{Externals}.

Abbreviation loc := nat (only parsing).

(** A view: [count] entries of the buffer at [base], from [start]. *)
Record view := View { base : loc; start : nat; count : nat }.

Inductive obj : Type :=
| OArray (a : list R)            (* a one-dimensional array that owns its buffer *)
| OPoints (a : list point)       (* an array of shape (n,2) *)
| OInts (l : list nat)           (* a list of indices *)
| OMatrix (M : matrix)           (* a sparse matrix *)
| OViews (l : list view)         (* a list of array views *)
| OInteg (t : R) (y_at : loc)    (* the integrator: its time and its state *).

Abbreviation store := (gmap nat obj) (only parsing).

(** A computation: it may raise, and it leaves a store in either case. *)
Definition M (A : Type) : Type := store -> result A * store.

Definition ret {A} (a : A) : M A := fun h => (Ok a, h).
Definition bindM {A B} (m : M A) (k : A -> M B) : M B :=
  fun h => match m h with
           | (Ok a, h') => k a h'
           | (Raise e, h') => (Raise e, h')
           end.
Definition lift {A} (r : result A) : M A := fun h => (r, h).

Definition alloc (o : obj) : M loc :=
  fun h => let l := fresh (dom h) in (Ok l, <[l:=o]> h).

Definition load (l : loc) : M obj :=
  fun h => match h !! l with
           | Some o => (Ok o, h)
           | None => (Raise TypeError, h)
           end.

Definition write (l : loc) (o : obj) : M unit :=
  fun h => (Ok tt, <[l:=o]> h).

Definition load_array (l : loc) : M (list R) :=
  bindM (load l) (fun o => match o with OArray a => ret a | _ => lift (Raise TypeError) end).
Definition load_points (l : loc) : M (list point) :=
  bindM (load l) (fun o => match o with OPoints a => ret a | _ => lift (Raise TypeError) end).
Definition load_ints (l : loc) : M (list nat) :=
  bindM (load l) (fun o => match o with OInts a => ret a | _ => lift (Raise TypeError) end).
Definition load_matrix (l : loc) : M matrix :=
  bindM (load l) (fun o => match o with OMatrix a => ret a | _ => lift (Raise TypeError) end).

Definition load_view (w : view) : M (list R) :=
  bindM (load_array (base w)) (fun a => ret (take (count w) (drop (start w) a))).

(** [v.reshape((2,-1))]: the two rows, as views of the buffer of [v]. *)
Definition reshape2_view (v : loc) : M (view * view) :=
  bindM (load_array v) (fun a =>
    if Nat.even (length a)
    then ret (View v 0 (length a / 2), View v (length a / 2) (length a / 2))
    else lift (Raise ValueError)).

(** [target[idx] = vals]: writes the buffer of [target]. *)
Definition setitem (target : loc) (idx : list nat) (vals : list R) : M unit :=
  bindM (load_array target) (fun a =>
  bindM (lift (np_put a idx vals)) (fun a' =>
  write target (OArray a'))).

(** The locations the module-level names are bound to. *)
Record names := Names {
  nodes_at : loc;
  interior_at : loc;
  boundary_at : loc;
  ghost_at : loc;
  D_at : loc;
  dD_at : loc;
  u_bnd_at : loc
}.

Definition f_store (rho : names) (junk : nat -> R) (t : R) (v : loc) : M (list R) :=
  (* v = v.reshape((2,-1)) *)
  bindM (reshape2_view v) (fun rows2 =>
  (* u = np.empty(len(nodes)) *)
  bindM (load_points (nodes_at rho)) (fun nodes =>
  bindM (alloc (OArray (np_empty junk (length nodes)))) (fun u =>
  (* u[interior+boundary] = v[0] *)
  bindM (load_view rows2.1) (fun d =>
  bindM (load_ints (interior_at rho)) (fun interior =>
  bindM (load_ints (boundary_at rho)) (fun boundary =>
  bindM (setitem u (interior ++ boundary) d) (fun _ =>
  (* u[ghost] = spsolve(dD[:,ghost],u_bnd - dD[:,interior+boundary].dot(v[0])) *)
  bindM (load_matrix (dD_at rho)) (fun dD =>
  bindM (load_ints (ghost_at rho)) (fun ghost =>
  bindM (lift (sp_cols dD ghost)) (fun A =>
  bindM (load_ints (interior_at rho)) (fun interior =>
  bindM (load_ints (boundary_at rho)) (fun boundary =>
  bindM (lift (sp_cols dD (interior ++ boundary))) (fun K =>
  bindM (load_view rows2.1) (fun d =>
  bindM (lift (sp_dot K d)) (fun k =>
  bindM (load_array (u_bnd_at rho)) (fun u_bnd =>
  bindM (lift (np_sub u_bnd k)) (fun b =>
  bindM (lift (spsolve A b)) (fun g =>
  bindM (load_ints (ghost_at rho)) (fun ghost =>
  bindM (setitem u ghost g) (fun _ =>
  (* return np.hstack([v[1],D.dot(u)]) *)
  bindM (load_view rows2.2) (fun w =>
  bindM (load_matrix (D_at rho)) (fun D =>
  bindM (load_array u) (fun u_now =>
  bindM (lift (sp_dot D u_now)) (fun a =>
  ret (np_hstack w a))))))))))))))))))))))))).

(** ** Lines 59-66 on the store

    The integrator is an object that holds its time and a reference to
    its state.  A call of [integrate] evaluates [f] on states of its own
    (calls that leave the store as it was, up to the array each of them
    allocates), puts the new state in a new array and records it with
    the time it reached.  The loop then rebinds [v] to a view of that
    array and appends to [soln]. *)

Definition get_store : M store := fun h => (Ok h, h).

Record loop_names := LoopNames {
  integrator_at : loc;
  soln_at : loc
}.

Definition integrate_store (rho : names) (junk : nat -> R) (integrator : loc) (t : R)
  : M loc :=
  bindM (load integrator) (fun o =>
    match o with
    | OInteg t0 y_at =>
        bindM (load_array y_at) (fun y =>
        bindM get_store (fun h =>
        let rhs := fun (t' : R) (z : list R) =>
          (f_store rho junk t' (fresh (dom h)) (<[fresh (dom h):=OArray z]> h)).1 in
        bindM (lift (ode_integrate rhs (t0, y) t)) (fun r =>
        bindM (alloc (OArray r.2)) (fun y_at' =>
        bindM (write integrator (OInteg r.1 y_at')) (fun _ =>
        ret y_at')))))
    | _ => lift (Raise TypeError)
    end).

Definition loop_body_store (rho : names) (junk : nat -> R) (names2 : loop_names) (t : R)
  : M unit :=
  (* v = integrator.integrate(t).reshape((2,-1)) *)
  bindM (integrate_store rho junk (integrator_at names2) t) (fun y_at =>
  bindM (reshape2_view y_at) (fun rows2 =>
  (* soln += [v[0]] *)
  bindM (load (soln_at names2)) (fun o =>
    match o with
    | OViews s => write (soln_at names2) (OViews (s ++ [rows2.1]))
    | _ => lift (Raise TypeError)
    end))).

Fixpoint loop_store (rho : names) (junk : nat -> R) (names2 : loop_names) (ts : list R)
  : M unit :=
  match ts with
  | [] => ret tt
  | t :: ts' =>
      bindM (loop_body_store rho junk names2 t) (fun _ =>
      loop_store rho junk names2 ts')
  end.

(** The store binds the names to the globals [G]. *)
Record binds (rho : names) (h : store) (G : globals) : Prop := {
  binds_nodes : h !! nodes_at rho = Some (OPoints (nodes G));
  binds_interior : h !! interior_at rho = Some (OInts (interior G));
  binds_boundary : h !! boundary_at rho = Some (OInts (boundary G));
  binds_ghost : h !! ghost_at rho = Some (OInts (ghost G));
  binds_D : h !! D_at rho = Some (OMatrix (D G));
  binds_dD : h !! dD_at rho = Some (OMatrix (dD G));
  binds_u_bnd : h !! u_bnd_at rho = Some (OArray (u_bnd G))
}.

End Store.

(** * What the claims speak about *)

Section Vocabulary.
Context `{Externals}.

(** The sum of [row[j] * u[j]] over the indices [j] of [idx]. *)
Definition dot_at (row u : list R) (idx : list nat) : R :=
  foldr (fun j acc => radd (rmul (default r0 (row !! j)) (default r0 (u !! j))) acc) r0 idx.

(** [a*x + b*y] on arrays. *)
Definition lincomb (a : R) (x : list R) (b : R) (y : list R) : result (list R) :=
  np_add (np_scale a x) (np_scale b y).

(** Its value on two arrays of one length. *)
Definition axpby (a : R) (x : list R) (b : R) (y : list R) : list R :=
  zip_with radd (np_scale a x) (np_scale b y).

(** A matrix is non-singular when [A.dot] is injective. *)
Definition nonsingular (A : matrix) : Prop :=
  forall x y : list R, length x = ncols A -> length y = ncols A ->
    sp_dot A x = sp_dot A y -> x = y.

(** The direct solver is exact on [A]: for every right-hand side it
    returns a solution of the system. *)
Definition solves_exactly (A : matrix) : Prop :=
  forall b : list R, length b = nrows A ->
    exists x, spsolve A b = Ok x /\ length x = ncols A /\ sp_dot A x = Ok b.

(** The ghost system of a set of globals: [dD[:,ghost]]. *)
Definition ghost_matrix (G : globals) : result matrix := sp_cols (dD G) (ghost G).

Definition ghost_solved (G : globals) : Prop :=
  forall A, ghost_matrix G = Ok A -> solves_exactly A.

Definition ghost_nonsingular (G : globals) : Prop :=
  forall A, ghost_matrix G = Ok A -> nonsingular A.

(** The direct solver answers on the ghost system: for every right-hand
    side it returns an array with one entry per unknown.  Nothing is said
    about the entries. *)
Definition ghost_answered (G : globals) : Prop :=
  forall A b, ghost_matrix G = Ok A -> length b = nrows A ->
    exists x, spsolve A b = Ok x /\ length x = ncols A.

(** [g] solves the boundary system for the known values [v0]:
    [dD[:,ghost] @ g = u_bnd - dD[:,interior+boundary] @ v0]. *)
Definition boundary_system (G : globals) (v0 g : list R) : Prop :=
  exists A K k b,
    sp_cols (dD G) (ghost G) = Ok A /\
    sp_cols (dD G) (interior G ++ boundary G) = Ok K /\
    sp_dot K v0 = Ok k /\
    np_sub (u_bnd G) k = Ok b /\
    sp_dot A g = Ok b.

(** The contracts of the routines that build the problem, on what they
    return: [menodes] returns [N] nodes, each tagged [-1] or with the
    index of an edge; [neighbors] returns one row of distances per point;
    [weight_matrix] returns one row per target and one column per source
    node. *)
Class Contracts (N : nat) : Prop := {
  menodes_shape :
    forall nodes0 ids, menodes N vert smp = Ok (nodes0, ids) ->
      length nodes0 = N /\ length ids = N /\ Forall (fun s => (-1 <= s)%Z) ids;
  neighbors_shape :
    forall x k idx dist, neighbors x k = Ok (idx, dist) -> length dist = length x;
  weight_matrix_shape :
    forall x p diffs coeffs n M, weight_matrix x p diffs coeffs n = Ok M ->
      wf_matrix M /\ nrows M = length x /\ ncols M = length p
}.

(** The conditions under which they return: a tag is the index of an
    edge of [smp], there is one normal per edge, [neighbors] finds [k]
    neighbours among at least [k] points, and a stencil of [n] nodes
    exists among at least [n] nodes. *)
Class Returns (N : nat) : Prop := {
  menodes_returns :
    exists nodes0 ids, menodes N vert smp = Ok (nodes0, ids) /\
      Forall (fun s => (s < Z.of_nat (length smp))%Z) ids;
  normals_returns :
    exists ns, simplex_outward_normals vert smp = Ok ns /\ length ns = length smp;
  neighbors_returns :
    forall x k, 0 < k <= length x ->
      exists idx dist, neighbors x k = Ok (idx, dist) /\
        Forall (fun r => length r = k) dist;
  weight_matrix_returns :
    forall x p diffs coeffs n, n <= length p ->
      exists M, weight_matrix x p diffs coeffs n = Ok M
}.

(** The integrator returns a state of the length it was given, whenever
    the right-hand side does. *)
Definition integrator_contract (n : nat) : Prop :=
  forall rhs : R -> list R -> result (list R),
    (forall t y, length y = n -> exists y', rhs t y = Ok y' /\ length y' = n) ->
    forall t0 y t1, length y = n ->
      exists t' y', ode_integrate rhs (t0, y) t1 = Ok (t', y') /\ length y' = n.

(** The integrator reaches every time asked of it (SciPy: [successful()]
    holds after each call). *)
Definition integrator_reaches : Prop :=
  forall rhs s t t' y', ode_integrate rhs s t = Ok (t', y') -> t' = t.

(** The loop state after the first [k] passes of the integration loop
    ([k = 0]: as the integrator was initialised). *)
Definition after_checkpoints (G : globals) (junk : nat -> R) (k : nat) : result loop_state :=
  t0 ← py_index times 0;
  loop G junk (LoopState t0 (v G) []) (take k (drop 1 times)).

(** Two results that are the same exception, or two arrays of one length
    that agree at the positions in [P]. *)
Definition agree_on (P : nat -> Prop) (r r' : result (list R)) : Prop :=
  match r, r' with
  | Ok a, Ok a' => length a = length a' /\ forall i, P i -> a !! i = a' !! i
  | Raise e, Raise e' => e = e'
  | _, _ => False
  end.

(** A computation that, started in a store that extends [h0], leaves a
    store that extends [h0], and whose result satisfies [Q]. *)
Definition keeps {A} (h0 : gmap nat obj) (m : M A) (Q : A -> Prop) : Prop :=
  forall h, h0 ⊆ h -> h0 ⊆ (m h).2 /\ forall a, (m h).1 = Ok a -> Q a.

(** The shapes of the globals after the set-up. *)
Record wf_globals (N : nat) (G : globals) : Prop := {
  wf_nodes : length (nodes G) = N + length (boundary G);
  wf_partition : interior G ++ boundary G ≡ₚ seq 0 N;
  wf_ghost : ghost G = seq N (length (boundary G));
  wf_D : wf_matrix (D G);
  wf_D_rows : nrows (D G) = length (interior G ++ boundary G);
  wf_D_cols : ncols (D G) = length (nodes G);
  wf_dD : wf_matrix (dD G);
  wf_dD_rows : nrows (dD G) = length (boundary G);
  wf_dD_cols : ncols (dD G) = length (nodes G);
  wf_u_bnd : u_bnd G = np_zeros (length (boundary G));
  wf_v : length (v G) = 2 * (length (interior G) + length (boundary G))
}.

End Vocabulary.

(** * A small instance

    Exact rational arithmetic, thirty nodes on a grid of which two lie on
    the boundary, inverse-quadratic weights, Cramer's rule as the direct
    solver and one step of the classical Runge-Kutta scheme as the
    integrator: stand-ins on which the contracts hold and everything
    computes. *)

Module Demo.

(** The square root to three decimal places, rounded down. *)
Definition sqrt3 (x : Qc) : Qc :=
  Q2Qc (Z.sqrt (Qfloor (Qmult x (1000000 # 1))) # 1000).

Definition Qc_leb (a b : Qc) : bool := Qle_bool a b.

#[export] Instance demo_scalar : Scalar := {|
  R := Qc;
  r0 := Q2Qc 0;
  r1 := Q2Qc 1;
  radd := Qcplus;
  rmul := Qcmult;
  rsub := Qcminus;
  ropp := Qcopp;
  rdiv := Qcdiv;
  rsqrt := sqrt3;
  rlit := Q2Qc;
  rleb := Qc_leb
|}.

(** Nodes on a grid of five columns, half a unit apart; node 3 lies on
    edge 0 and node 17 on edge 3. *)
Definition grid_node (i : nat) : point :=
  (Q2Qc (Z.of_nat (i mod 5) # 2), Q2Qc (Z.of_nat (i / 5) # 2)).

Definition grid_tag (i : nat) : Z :=
  if i =? 3 then 0%Z else if i =? 17 then 3%Z else (-1)%Z.

Definition demo_menodes (N : nat) (vert : list point) (smp : list (nat * nat))
  : result (list point * list Z) :=
  Ok (map grid_node (seq 0 N), map grid_tag (seq 0 N)).

Definition Qc_abs (x : Qc) : Qc := if Qc_leb (Q2Qc 0) x then x else Qcopp x.

(** The normal of the edge from [p] to [q] of a counter-clockwise
    polygon, scaled by the sum of the moduli of its components. *)
Definition edge_normal (p q : point) : point :=
  let ex := Qcminus q.1 p.1 in
  let ey := Qcminus q.2 p.2 in
  let len := Qcplus (Qc_abs ex) (Qc_abs ey) in
  (Qcdiv ey len, Qcdiv (Qcopp ex) len).

Definition demo_normals (vert : list point) (smp : list (nat * nat))
  : result (list point) :=
  p ← np_take vert smp.*1;
  q ← np_take vert smp.*2;
  Ok (zip_with edge_normal p q).

Definition dist2 (p q : point) : Qc :=
  Qcplus (Qcmult (Qcminus p.1 q.1) (Qcminus p.1 q.1))
         (Qcmult (Qcminus p.2 q.2) (Qcminus p.2 q.2)).

Fixpoint insert_by_dist (e : Qc * nat) (l : list (Qc * nat)) : list (Qc * nat) :=
  match l with
  | [] => [e]
  | e' :: l' => if Qc_leb e.1 e'.1 then e :: l else e' :: insert_by_dist e l'
  end.

Definition nearest (k : nat) (x : list point) (p : point) : list (Qc * nat) :=
  take k (foldr insert_by_dist [] (zip (map (fun q => sqrt3 (dist2 p q)) x)
                                       (seq 0 (length x)))).

Definition demo_neighbors (x : list point) (k : nat)
  : result (list (list nat) * list (list Qc)) :=
  if decide (k <= length x)
  then Ok (map (fun p => (nearest k x p).*2) x, map (fun p => (nearest k x p).*1) x)
  else Raise LibraryError.

(** Inverse-quadratic weights. *)
Definition weight (diffs : list (nat * nat)) (coeffs : list Qc) (x p : point) : Qc :=
  let w (d : nat * nat) (c : Qc) :=
    Qcmult c (Qcmult (rpow (Qcminus p.1 x.1) d.1) (rpow (Qcminus p.2 x.2) d.2)) in
  Qcdiv (foldr Qcplus (Q2Qc 0) (zip_with w diffs coeffs))
        (Qcplus (Q2Qc 1) (dist2 x p)).

Definition demo_weight_matrix (x p : list point) (diffs : list (nat * nat))
           (coeffs : option (list (list Qc))) (n : nat) : result matrix :=
  if decide (n <= length p)
  then
    let coeff_of (i : nat) : list Qc :=
      match coeffs with
      | None => replicate (length diffs) (Q2Qc 1)
      | Some cs => map (fun c => default (Q2Qc 0) (c !! i)) cs
      end in
    Ok (Matrix (length x) (length p)
          (imap (fun i xi => map (weight diffs (coeff_of i) xi) p) x))
  else Raise LibraryError.

(** Cramer's rule, for systems of one or two equations. *)
Definition demo_spsolve (A : matrix) (b : list Qc) : result (list Qc) :=
  match rows A, b with
  | [[a11]], [b1] =>
      if decide (a11 = Q2Qc 0) then Raise LibraryError else Ok [Qcdiv b1 a11]
  | [[a11; a12]; [a21; a22]], [b1; b2] =>
      let det := Qcminus (Qcmult a11 a22) (Qcmult a12 a21) in
      if decide (det = Q2Qc 0) then Raise LibraryError
      else Ok [ Qcdiv (Qcminus (Qcmult b1 a22) (Qcmult a12 b2)) det;
                Qcdiv (Qcminus (Qcmult a11 b2) (Qcmult b1 a21)) det ]
  | _, _ => Raise LibraryError
  end.

(** One step of the classical fourth-order Runge-Kutta scheme. *)
Definition axpy (c : Qc) (x y : list Qc) : list Qc :=
  zip_with (fun xi yi => Qcplus (Qcmult c xi) yi) x y.

(** The stand-in takes the whole interval in one step, so that it always
    reaches the time asked. *)
Definition demo_integrate (rhs : Qc -> list Qc -> result (list Qc))
           (s : Qc * list Qc) (t1 : Qc) : result (Qc * list Qc) :=
  let '(t0, y) := s in
  let dt := Qcminus t1 t0 in
  let half := Qcdiv dt (Q2Qc 2) in
  k1 ← rhs t0 y;
  k2 ← rhs (Qcplus t0 half) (axpy half k1 y);
  k3 ← rhs (Qcplus t0 half) (axpy half k2 y);
  k4 ← rhs t1 (axpy dt k3 y);
  Ok (t1, axpy (Qcdiv dt (Q2Qc 6)) k1
            (axpy (Qcdiv dt (Q2Qc 3)) k2
               (axpy (Qcdiv dt (Q2Qc 3)) k3
                  (axpy (Qcdiv dt (Q2Qc 6)) k4 y)))).

#[export] Instance demo_externals : Externals := {|
  menodes := demo_menodes;
  simplex_outward_normals := demo_normals;
  neighbors := demo_neighbors;
  weight_matrix := demo_weight_matrix;
  spsolve := demo_spsolve;
  ode_integrate := demo_integrate
|}.

Definition empty_globals : globals :=
  Globals [] [] [] [] [] (Q2Qc 0) [] (Matrix 0 0 []) (Matrix 0 0 []) [] [] [] [].

(** The globals of the set-up with thirty nodes. *)
Definition demo_G : globals :=
  Eval vm_compute in
    match setup 30 with
    | Ok G => G
    | Raise _ => empty_globals
    end.

#[export] Instance demo_eq_dec : EqDecision (@R demo_scalar) := Qc_eq_dec.

#[export] Instance demo_exact : ExactArith := {| scalar_ring := Qcrt |}.

(** ** Inputs for the claims *)


Definition demo_junk (i : nat) : Qc := Q2Qc (Z.of_nat i # 1).
Definition demo_junk' (i : nat) : Qc := Q2Qc (- Z.of_nat i # 3).
Definition demo_y : list Qc := map (fun i => Q2Qc (Z.of_nat i # 7)) (seq 0 60).
Definition demo_y' : list Qc := map (fun i => Q2Qc (Z.of_nat (i * i) # 11)) (seq 0 60).

(** A field that satisfies the boundary condition: the one rebuilt from
    the first half of [demo_y]. *)
Definition demo_u_full : list Qc :=
  Eval vm_compute in
    match displacement demo_G demo_junk (take 30 demo_y) with
    | Ok u => u
    | Raise _ => []
    end.

(** A store that binds the names to the globals, and holds [demo_y]. *)
Definition demo_names : names := Names 0 1 2 3 4 5 6.
Definition demo_store : gmap nat obj :=
  list_to_map
    [ (0, OPoints (nodes demo_G)); (1, OInts (interior demo_G));
      (2, OInts (boundary demo_G)); (3, OInts (ghost demo_G));
      (4, OMatrix (D demo_G)); (5, OMatrix (dD demo_G));
      (6, OArray (u_bnd demo_G)); (7, OArray demo_y);
      (8, OInteg (Q2Qc 0) 7); (9, OViews []) ].

End Demo.

(** ** Variants of the instance

    The same nodes with every weight equal to one, which makes the ghost
    system singular; a solver that answers without solving (SciPy's
    [spsolve] warns on an exactly singular matrix and returns an array of
    [nan]; the stand-in returns an array of ones); and a node tagged with
    an edge the polygon does not have. *)

Module Variants.
Import Demo.

Definition variant (mn : nat -> list point -> list (nat * nat) -> result (list point * list Z))
           (wm : list point -> list point -> list (nat * nat) ->
                 option (list (list Qc)) -> nat -> result matrix)
           (sv : matrix -> list Qc -> result (list Qc)) : Externals := {|
  menodes := mn;
  simplex_outward_normals := demo_normals;
  neighbors := demo_neighbors;
  weight_matrix := wm;
  spsolve := sv;
  ode_integrate := demo_integrate
|}.

Definition ones_weight_matrix (x p : list point) (diffs : list (nat * nat))
           (coeffs : option (list (list Qc))) (n : nat) : result matrix :=
  if decide (n <= length p)
  then Ok (Matrix (length x) (length p) (map (fun _ => map (fun _ => Q2Qc 1) p) x))
  else Raise LibraryError.

Definition lenient_spsolve (A : matrix) (b : list Qc) : result (list Qc) :=
  Ok (replicate (nrows A) (Q2Qc 1)).

Definition far_tag (i : nat) : Z := if i =? 5 then 9%Z else grid_tag i.

Definition far_menodes (N : nat) (vert : list point) (smp : list (nat * nat))
  : result (list point * list Z) :=
  Ok (map grid_node (seq 0 N), map far_tag (seq 0 N)).

Definition singular_externals : Externals :=
  variant demo_menodes ones_weight_matrix demo_spsolve.
Definition lenient_externals : Externals :=
  variant demo_menodes ones_weight_matrix lenient_spsolve.
Definition far_externals : Externals :=
  variant far_menodes demo_weight_matrix demo_spsolve.

(** The globals of the set-up with the weights equal to one. *)
Definition singular_G : globals :=
  Eval vm_compute in
    match @setup _ singular_externals 30 with
    | Ok G => G
    | Raise _ => empty_globals
    end.

Definition demo_edge_normals : list point :=
  Eval vm_compute in
    match demo_normals vert smp with
    | Ok ns => ns
    | Raise _ => []
    end.

End Variants.

(** * Facts about the array operations *)

Section NumpyFacts.
Context {Sc : Scalar}.

Lemma np_empty_length (junk : nat -> R) (n : nat) : length (np_empty junk n) = n.
Proof. unfold np_empty. by rewrite length_map, length_seq. Qed.

Lemma np_zeros_length (n : nat) : length (np_zeros n) = n.
Proof. apply length_replicate. Qed.

Lemma reshape2_halves (y : list R) (m : nat) :
  length y = 2 * m -> reshape2 y = Ok (take m y, drop m y).
Proof.
  intros Hy. unfold reshape2. rewrite Hy.
  replace (Nat.even (2 * m)) with true
    by (symmetry; apply Nat.even_spec; by exists m).
  replace (2 * m / 2) with m; [done|].
  symmetry. rewrite Nat.mul_comm. apply Nat.div_mul. lia.
Qed.

Lemma reshape2_odd (y : list R) :
  Nat.even (length y) = false -> reshape2 y = Raise ValueError.
Proof. intros Hy. unfold reshape2. by rewrite Hy. Qed.

(** Reading with a list of indices. *)
Lemma np_take_Forall2 {A} (a : list A) (idx : list nat) (vals : list A) :
  np_take a idx = Ok vals <-> Forall2 (fun i x => a !! i = Some x) idx vals.
Proof.
  revert vals. induction idx as [|i idx IH]; intros vals; simpl.
  - split; [intros [= <-]; constructor | by inversion 1].
  - destruct (a !! i) as [x|] eqn:Hi; simpl.
    + destruct (np_take a idx) as [xs|e] eqn:Hxs; simpl.
      * split.
        -- intros [= <-]. constructor; [done|]. by apply IH.
        -- inversion 1 as [|? y ? ys Hy Hys]; subst.
           apply IH in Hys. by simplify_eq.
      * split; [done|]. inversion 1 as [|? y ? ys Hy Hys]; subst.
        apply IH in Hys. done.
    + split; [done|]. inversion 1; simplify_eq.
Qed.

Lemma np_take_length {A} (a : list A) idx vals :
  np_take a idx = Ok vals -> length vals = length idx.
Proof. intros Ht%np_take_Forall2. symmetry. by eapply Forall2_length. Qed.

Lemma np_take_total {A} (a : list A) (idx : list nat) :
  Forall (fun i => i < length a) idx -> exists vals, np_take a idx = Ok vals.
Proof.
  induction 1 as [|i idx Hi _ [xs IH]]; simpl; [by eexists|].
  destruct (lookup_lt_is_Some_2 a i Hi) as [x ->]. rewrite IH. by eexists.
Qed.

Lemma np_take_app {A} (a : list A) idx1 idx2 vals1 vals2 :
  np_take a idx1 = Ok vals1 -> np_take a idx2 = Ok vals2 ->
  np_take a (idx1 ++ idx2) = Ok (vals1 ++ vals2).
Proof.
  rewrite !np_take_Forall2. apply Forall2_app.
Qed.

Lemma np_take_app_inv {A} (a : list A) idx1 idx2 vals :
  np_take a (idx1 ++ idx2) = Ok vals ->
  np_take a idx1 = Ok (take (length idx1) vals) /\
  np_take a idx2 = Ok (drop (length idx1) vals).
Proof.
  rewrite !np_take_Forall2. intros Hf.
  apply Forall2_app_inv_l in Hf as (v1 & v2 & H1 & H2 & ->).
  pose proof (Forall2_length _ _ _ H1) as Hl.
  rewrite Hl, take_app_length, drop_app_length. done.
Qed.

(** Two arrays of one length that agree at a set of indices covering
    every position are equal. *)
Lemma np_take_determines {A} (a b : list A) (idx : list nat) (vals : list A) :
  length a = length b ->
  (forall i, i < length a -> i ∈ idx) ->
  np_take a idx = Ok vals -> np_take b idx = Ok vals -> a = b.
Proof.
  intros Hl Hcov Ha%np_take_Forall2 Hb%np_take_Forall2.
  apply list_eq. intros i.
  destruct (decide (i < length a)) as [Hi|Hi].
  - destruct (list_elem_of_lookup_1 _ _ (Hcov i Hi)) as [k Hk].
    destruct (Forall2_lookup_l _ _ _ _ _ Ha Hk) as (x & Hx & Hax).
    destruct (Forall2_lookup_l _ _ _ _ _ Hb Hk) as (x' & Hx' & Hbx).
    congruence.
  - rewrite !lookup_ge_None_2; [done| |]; lia.
Qed.

(** Writing with a list of indices. *)
Lemma put_all_spec {A} (iv : list (nat * A)) (a : list A) :
  Forall (fun p => p.1 < length a) iv ->
  exists a', put_all a iv = Ok a' /\ length a' = length a /\
    (forall i, i ∉ iv.*1 -> a' !! i = a !! i) /\
    (NoDup iv.*1 -> Forall (fun p => a' !! p.1 = Some p.2) iv).
Proof.
  revert a. induction iv as [|[i x] iv IH]; intros a Hb; simpl.
  - exists a. split_and!; [done..|]. constructor.
  - apply Forall_cons in Hb as [Hi Hb]. simpl in Hi.
    rewrite decide_True by done.
    destruct (IH (<[i:=x]> a)) as (a' & Hput & Hlen & Hout & Hin).
    { by rewrite length_insert. }
    exists a'. rewrite length_insert in Hlen. split_and!; [done|done| |].
    + intros j Hj. apply not_elem_of_cons in Hj as [Hji Hj].
      rewrite Hout by done. by apply list_lookup_insert_ne.
    + intros [Hni Hnd]%NoDup_cons. constructor; [|by apply Hin].
      simpl. rewrite Hout by done. by apply list_lookup_insert_eq.
Qed.

Lemma put_all_bounds {A} (iv : list (nat * A)) (a a' : list A) :
  put_all a iv = Ok a' -> Forall (fun p => p.1 < length a) iv.
Proof.
  revert a. induction iv as [|[i x] iv IH]; intros a; simpl; [constructor|].
  destruct (decide (i < length a)); [|done]. intros Hp.
  constructor; [done|]. apply IH in Hp. by rewrite length_insert in Hp.
Qed.

Lemma put_all_length {A} (iv : list (nat * A)) (a a' : list A) :
  put_all a iv = Ok a' -> length a' = length a.
Proof.
  revert a. induction iv as [|[i x] iv IH]; intros a; simpl; [by intros [= <-]|].
  destruct (decide (i < length a)); [|done]. intros Hp%IH.
  by rewrite length_insert in Hp.
Qed.

Lemma np_put_length {A} (a a' : list A) (idx : list nat) (vals : list A) :
  np_put a idx vals = Ok a' -> length a' = length a.
Proof.
  unfold np_put. case_decide; [apply put_all_length|].
  destruct vals as [|x [|]]; try done. apply put_all_length.
Qed.

Lemma np_put_spec {A} (a : list A) (idx : list nat) (vals : list A) :
  length vals = length idx -> Forall (fun i => i < length a) idx -> NoDup idx ->
  exists a', np_put a idx vals = Ok a' /\ length a' = length a /\
    (forall i, i ∉ idx -> a' !! i = a !! i) /\ np_take a' idx = Ok vals.
Proof.
  intros Hl Hb Hnd. unfold np_put. rewrite decide_True by done.
  destruct (put_all_spec (zip idx vals) a) as (a' & Hput & Hlen & Hout & Hin).
  { apply Forall_forall. intros [i x] Hix. simpl.
    apply elem_of_zip_l in Hix. by eapply Forall_forall in Hb. }
  assert (Hfst : (zip idx vals).*1 = idx) by (apply fst_zip; lia).
  rewrite Hfst in *. exists a'. split_and!; [done..|].
  apply np_take_Forall2. specialize (Hin Hnd).
  clear -Hin Hl. revert vals Hl Hin.
  induction idx as [|i idx IH]; intros [|x vals] Hl Hin; simplify_eq/=; [constructor|].
  apply Forall_cons in Hin as [Hi Hin]. constructor; [done|]. by apply IH.
Qed.

End NumpyFacts.

(** * Linear algebra on arrays *)

Section LinearAlgebra.
Context {Sc : Scalar} {EA : ExactArith} {E : Externals}.

Add Ring scalar_ring_inst : scalar_ring.

Lemma dot_cons (x y : R) (a b : list R) :
  dot (x :: a) (y :: b) = radd (rmul x y) (dot a b).
Proof. done. Qed.

Lemma dot_nil_r (a : list R) : dot a [] = r0.
Proof. by destruct a. Qed.

Lemma dot_at_cons (row u : list R) (j : nat) (idx : list nat) :
  dot_at row u (j :: idx)
  = radd (rmul (default r0 (row !! j)) (default r0 (u !! j))) (dot_at row u idx).
Proof. done. Qed.

Lemma dot_at_app (row u : list R) (i1 i2 : list nat) :
  dot_at row u (i1 ++ i2) = radd (dot_at row u i1) (dot_at row u i2).
Proof.
  induction i1 as [|j i1 IH]; [change (dot_at row u []) with r0; simpl app; ring|].
  rewrite <- app_comm_cons, !dot_at_cons, IH. ring.
Qed.

Lemma dot_at_perm (row u : list R) (i1 i2 : list nat) :
  i1 ≡ₚ i2 -> dot_at row u i1 = dot_at row u i2.
Proof.
  induction 1 as [|j i1 i2 _ IH|j k i1|i1 i2 i3 _ IH1 _ IH2].
  - done.
  - by rewrite !dot_at_cons, IH.
  - rewrite !dot_at_cons. ring.
  - congruence.
Qed.

Lemma dot_at_shift (x y : R) (row u : list R) (idx : list nat) :
  dot_at (x :: row) (y :: u) (S <$> idx) = dot_at row u idx.
Proof.
  induction idx as [|j idx IH]; [done|].
  rewrite fmap_cons, !dot_at_cons, IH. done.
Qed.

Lemma dot_at_seq (row u : list R) :
  length row = length u -> dot_at row u (seq 0 (length u)) = dot row u.
Proof.
  revert u. induction row as [|x row IH]; intros [|y u] Hl; try done.
  change (seq 0 (length (y :: u))) with (0 :: seq 1 (length u)).
  rewrite <- fmap_S_seq, dot_at_cons, dot_at_shift, IH, dot_cons; [done|].
  simpl in Hl. lia.
Qed.

(** A row restricted to the columns [idx], against the entries of [u] at
    [idx]. *)
Lemma dot_pick (row u : list R) (idx : list nat) (vals : list R) :
  np_take u idx = Ok vals -> dot (pick row idx) vals = dot_at row u idx.
Proof.
  intros Ht%np_take_Forall2.
  induction Ht as [|j x idx vals Hj _ IH]; [done|].
  rewrite dot_at_cons, <- IH, Hj. done.
Qed.

(** Splitting the columns of a row in two groups that together list
    every column once. *)
Lemma dot_split (row u : list R) (i1 i2 : list nat) (vals1 vals2 : list R) :
  length row = length u ->
  i1 ++ i2 ≡ₚ seq 0 (length u) ->
  np_take u i1 = Ok vals1 -> np_take u i2 = Ok vals2 ->
  dot row u = radd (dot (pick row i1) vals1) (dot (pick row i2) vals2).
Proof.
  intros Hl Hp H1 H2.
  rewrite (dot_pick _ u) by done. rewrite (dot_pick _ u) by done.
  rewrite <- dot_at_app, (dot_at_perm _ _ _ _ Hp). symmetry. by apply dot_at_seq.
Qed.

(** [dot] is linear in its second argument. *)
Lemma dot_lincomb (row : list R) (a b : R) (x y : list R) :
  length x = length y ->
  dot row (axpby a x b y) = radd (rmul a (dot row x)) (rmul b (dot row y)).
Proof.
  unfold axpby. revert x y. induction row as [|c row IH]; intros [|p x] [|q y] Hl; simplify_eq/=;
    try (unfold dot; simpl; ring).
  rewrite !dot_cons, IH by done. ring.
Qed.

Lemma dot_zeros (row : list R) (n : nat) : dot row (np_zeros n) = r0.
Proof.
  revert n. induction row as [|c row IH]; intros [|n]; try done.
  unfold np_zeros in *. simpl. rewrite dot_cons, IH. ring.
Qed.

Lemma lincomb_Ok (a b : R) (x y : list R) :
  length x = length y ->
  lincomb a x b y = Ok (axpby a x b y).
Proof.
  intros Hl. unfold lincomb, axpby, np_add, np_zip_with, np_scale.
  rewrite decide_True; [done|]. by rewrite !length_map.
Qed.

Lemma lincomb_length (a b : R) (x y w : list R) :
  length x = length y -> lincomb a x b y = Ok w -> length w = length x.
Proof.
  intros Hl. rewrite lincomb_Ok by done. intros [= <-].
  unfold axpby, np_scale. rewrite length_zip_with, !length_map. lia.
Qed.

Lemma sp_dot_Ok (M : matrix) (x : list R) :
  length x = ncols M -> sp_dot M x = Ok (map (fun r => dot r x) (rows M)).
Proof. intros Hl. unfold sp_dot. by rewrite decide_True. Qed.

Lemma sp_dot_length (M : matrix) (x y : list R) :
  wf_matrix M -> sp_dot M x = Ok y -> length y = nrows M.
Proof.
  intros [Hr _]. unfold sp_dot. case_decide; [|done]. intros [= <-].
  by rewrite length_map.
Qed.

Lemma sp_dot_lincomb (M : matrix) (a b : R) (x y : list R) :
  length x = ncols M -> length y = ncols M ->
  sp_dot M (axpby a x b y)
  = Ok (axpby a (map (fun r => dot r x) (rows M)) b (map (fun r => dot r y) (rows M))).
Proof.
  intros Hx Hy. rewrite sp_dot_Ok.
  2:{ unfold axpby, np_scale. rewrite length_zip_with, !length_map. lia. }
  f_equal. induction (rows M) as [|r rs IH]; simpl; [done|].
  rewrite IH, dot_lincomb by lia. done.
Qed.

Lemma sp_dot_zeros (M : matrix) :
  wf_matrix M -> sp_dot M (np_zeros (ncols M)) = Ok (np_zeros (nrows M)).
Proof.
  intros [Hr _]. rewrite sp_dot_Ok by apply np_zeros_length. f_equal.
  rewrite <- Hr. clear Hr. unfold np_zeros at 2.
  induction (rows M) as [|r rs IH]; simpl; [done|]. by rewrite dot_zeros, IH.
Qed.

(** Selecting columns. *)
Lemma sp_cols_Ok (M : matrix) (idx : list nat) :
  Forall (fun j => j < ncols M) idx ->
  sp_cols M idx = Ok (Matrix (nrows M) (length idx) (map (fun r => pick r idx) (rows M))).
Proof.
  intros Hb. unfold sp_cols.
  replace (forallb _ idx) with true; [done|]. symmetry.
  apply forallb_forall. intros j Hj%list_elem_of_In.
  apply Nat.ltb_lt. by eapply Forall_forall in Hb.
Qed.

Lemma sp_cols_wf (M A : matrix) (idx : list nat) :
  wf_matrix M -> sp_cols M idx = Ok A ->
  wf_matrix A /\ nrows A = nrows M /\ ncols A = length idx /\
  rows A = map (fun r => pick r idx) (rows M).
Proof.
  intros [Hr Hc]. unfold sp_cols. destruct (forallb _ idx); [|done].
  intros [= <-]. simpl. split_and!; try done. split; simpl.
  - by rewrite length_map.
  - apply Forall_forall. intros r (r' & -> & _)%list_elem_of_fmap.
    unfold pick. by rewrite length_map.
Qed.

(** [M.dot(u)] from the two column blocks of [M]. *)
Lemma sp_dot_split (M M1 M2 : matrix) (u : list R) (i1 i2 : list nat)
      (vals1 vals2 k1 k2 : list R) :
  wf_matrix M -> length u = ncols M ->
  i1 ++ i2 ≡ₚ seq 0 (length u) ->
  np_take u i1 = Ok vals1 -> np_take u i2 = Ok vals2 ->
  sp_cols M i1 = Ok M1 -> sp_cols M i2 = Ok M2 ->
  sp_dot M1 vals1 = Ok k1 -> sp_dot M2 vals2 = Ok k2 ->
  sp_dot M u = Ok (zip_with radd k1 k2).
Proof.
  intros HM Hu Hp Ht1 Ht2 Hc1 Hc2 Hd1 Hd2.
  destruct (sp_cols_wf _ _ _ HM Hc1) as (_ & _ & Hn1 & Hr1).
  destruct (sp_cols_wf _ _ _ HM Hc2) as (_ & _ & Hn2 & Hr2).
  rewrite sp_dot_Ok in Hd1 by (rewrite Hn1; by eapply np_take_length).
  rewrite sp_dot_Ok in Hd2 by (rewrite Hn2; by eapply np_take_length).
  simplify_eq. rewrite sp_dot_Ok by done. f_equal.
  rewrite Hr1, Hr2. clear Hr1 Hr2 Hc1 Hc2. destruct HM as [_ Hc].
  induction Hc as [|r rs Hr _ IH]; simpl; [done|].
  rewrite IH. f_equal. apply dot_split; [lia|done..].
Qed.

End LinearAlgebra.

(** * The evaluator on well-shaped globals *)

Section EvaluatorFacts.
Context {Sc : Scalar} {EA : ExactArith} {E : Externals}.
Variables (N : nat) (G : globals).
Hypothesis HG : wf_globals N G.

Lemma known_length : length (interior G ++ boundary G) = N.
Proof. rewrite (Permutation_length (wf_partition _ _ HG)). apply length_seq. Qed.

Lemma half_count : length (interior G) + length (boundary G) = N.
Proof. rewrite <- length_app. apply known_length. Qed.

Lemma known_lt (i : nat) : i ∈ interior G ++ boundary G -> i < N.
Proof. rewrite (wf_partition _ _ HG), elem_of_seq. lia. Qed.

Lemma known_NoDup : NoDup (interior G ++ boundary G).
Proof. rewrite (wf_partition _ _ HG). apply NoDup_seq. Qed.

Lemma ghost_length : length (ghost G) = length (boundary G).
Proof. rewrite (wf_ghost _ _ HG). apply length_seq. Qed.

Lemma ghost_ge (i : nat) :
  i ∈ ghost G -> N <= i < length (nodes G).
Proof. rewrite (wf_ghost _ _ HG), (wf_nodes _ _ HG), elem_of_seq. lia. Qed.

Lemma ghost_NoDup : NoDup (ghost G).
Proof. rewrite (wf_ghost _ _ HG). apply NoDup_seq. Qed.

Lemma all_nodes :
  (interior G ++ boundary G) ++ ghost G ≡ₚ seq 0 (length (nodes G)).
Proof.
  rewrite (wf_nodes _ _ HG), (wf_ghost _ _ HG), seq_app, (wf_partition _ _ HG).
  done.
Qed.

Lemma all_nodes_cover (i : nat) :
  i < length (nodes G) -> i ∈ (interior G ++ boundary G) ++ ghost G.
Proof. rewrite all_nodes, elem_of_seq. lia. Qed.

(** The ghost system has one equation per boundary node and one unknown
    per ghost node. *)
Lemma ghost_matrix_shape :
  exists A, ghost_matrix G = Ok A /\ wf_matrix A /\
    nrows A = length (boundary G) /\ ncols A = length (ghost G).
Proof.
  unfold ghost_matrix. eexists. rewrite sp_cols_Ok.
  2:{ apply Forall_forall. intros j Hj%ghost_ge. rewrite (wf_dD_cols _ _ HG). lia. }
  split; [done|].
  edestruct (sp_cols_wf (dD G)) as (Hwf & Hr & Hc & _);
    [apply (wf_dD _ _ HG) | apply sp_cols_Ok | ].
  { apply Forall_forall. intros j Hj%ghost_ge. rewrite (wf_dD_cols _ _ HG). lia. }
  split; [exact Hwf|]. simpl. split; [apply (wf_dD_rows _ _ HG)|done].
Qed.

Lemma known_matrix_shape :
  exists K, sp_cols (dD G) (interior G ++ boundary G) = Ok K /\ wf_matrix K /\
    nrows K = length (boundary G) /\ ncols K = N.
Proof.
  assert (Hb : Forall (fun j => j < ncols (dD G)) (interior G ++ boundary G)).
  { apply Forall_forall. intros j Hj%known_lt.
    rewrite (wf_dD_cols _ _ HG), (wf_nodes _ _ HG). lia. }
  eexists. split; [by apply sp_cols_Ok|].
  destruct (sp_cols_wf (dD G) _ _ (wf_dD _ _ HG) (sp_cols_Ok _ _ Hb)) as (Hwf & Hr & Hc & _).
  split; [exact Hwf|]. simpl. split; [apply (wf_dD_rows _ _ HG)|apply known_length].
Qed.

(** Line 55, right-hand side. *)
Lemma ghost_values_spec (v0 : list R) :
  ghost_solved G -> length v0 = N ->
  exists g, ghost_values G v0 = Ok g /\ length g = length (boundary G) /\
    boundary_system G v0 g.
Proof.
  intros Hsolve Hv0.
  destruct ghost_matrix_shape as (A & HA & HAwf & HAr & HAc).
  destruct known_matrix_shape as (K & HK & HKwf & HKr & HKc).
  assert (Hk : sp_dot K v0 = Ok (map (fun r => dot r v0) (rows K)))
    by (apply sp_dot_Ok; lia).
  pose proof (sp_dot_length _ _ _ HKwf Hk) as Hkl.
  assert (Hb : np_sub (u_bnd G) (map (fun r => dot r v0) (rows K))
               = Ok (zip_with rsub (u_bnd G) (map (fun r => dot r v0) (rows K)))).
  { unfold np_sub, np_zip_with. rewrite decide_True; [done|].
    rewrite (wf_u_bnd _ _ HG), np_zeros_length. lia. }
  destruct (Hsolve A HA (zip_with rsub (u_bnd G) (map (fun r => dot r v0) (rows K))))
    as (g & Hg & Hgl & HAg).
  { rewrite length_zip_with, (wf_u_bnd _ _ HG), np_zeros_length. lia. }
  exists g. split; [|split].
  - unfold ghost_values. unfold ghost_matrix in HA.
    rewrite HA; simpl. rewrite HK; simpl. rewrite Hk; simpl. rewrite Hb; simpl. done.
  - rewrite Hgl, HAc. apply ghost_length.
  - unfold boundary_system. by eexists A, K, _, _.
Qed.

(** Lines 50-55: the displacement array. *)
Lemma displacement_spec (junk : nat -> R) (v0 : list R) :
  ghost_solved G -> length v0 = N ->
  exists u g, displacement G junk v0 = Ok u /\
    length u = length (nodes G) /\
    np_take u (interior G ++ boundary G) = Ok v0 /\
    np_take u (ghost G) = Ok g /\
    ghost_values G v0 = Ok g /\
    boundary_system G v0 g.
Proof.
  intros Hsolve Hv0.
  destruct (ghost_values_spec v0 Hsolve Hv0) as (g & Hg & Hgl & Hsys).
  destruct (np_put_spec (np_empty junk (length (nodes G)))
              (interior G ++ boundary G) v0) as (u1 & Hu1 & Hl1 & Hout1 & Hin1).
  { by rewrite known_length. }
  { apply Forall_forall. intros i Hi%known_lt.
    rewrite np_empty_length, (wf_nodes _ _ HG). lia. }
  { apply known_NoDup. }
  destruct (np_put_spec u1 (ghost G) g) as (u2 & Hu2 & Hl2 & Hout2 & Hin2).
  { by rewrite ghost_length. }
  { apply Forall_forall. intros i Hi%ghost_ge.
    rewrite Hl1, np_empty_length. lia. }
  { apply ghost_NoDup. }
  exists u2, g. split_and!; try done.
  - unfold displacement. rewrite Hu1; simpl. rewrite Hg; simpl. done.
  - by rewrite Hl2, Hl1, np_empty_length.
  - apply np_take_Forall2. apply np_take_Forall2 in Hin1.
    apply Forall2_same_length_lookup in Hin1 as [Hlen Hin1].
    apply Forall2_same_length_lookup. split; [done|].
    intros k i x Hi Hx. rewrite Hout2; [by eapply Hin1|].
    intros Hgi%ghost_ge. apply list_elem_of_lookup_2, known_lt in Hi. lia.
Qed.

(** The evaluator has no error handling of its own: the ghost values are
    whatever [spsolve] answers on the ghost system. *)
Lemma ghost_values_unfold (v0 : list R) :
  length v0 = N ->
  exists A K,
    ghost_matrix G = Ok A /\
    sp_cols (dD G) (interior G ++ boundary G) = Ok K /\
    ghost_values G v0
    = spsolve A (zip_with rsub (u_bnd G) (map (fun r => dot r v0) (rows K))).
Proof.
  intros Hv0.
  destruct ghost_matrix_shape as (A & HA & HAwf & HAr & HAc).
  destruct known_matrix_shape as (K & HK & HKwf & HKr & HKc).
  exists A, K. split_and!; try done.
  unfold ghost_values. unfold ghost_matrix in HA. rewrite HA; simpl. rewrite HK; simpl.
  rewrite sp_dot_Ok by lia. simpl.
  unfold np_sub, np_zip_with. rewrite decide_True; [done|].
  rewrite (wf_u_bnd _ _ HG), np_zeros_length, length_map.
  destruct HKwf as [-> _]. done.
Qed.

(** An exception of the solver is the exception of the call. *)
Lemma f_raises_with_solver (junk : nat -> R) (t : R) (y : list R) (e : exn) :
  length y = 2 * N ->
  (forall A b, ghost_matrix G = Ok A -> spsolve A b = Raise e) ->
  f G junk t y = Raise e.
Proof.
  intros Hy Hraise.
  assert (Hv0 : length (take N y) = N) by (rewrite length_take; lia).
  destruct (ghost_values_unfold (take N y) Hv0) as (A & K & HA & _ & Hgv).
  rewrite (Hraise A _ HA) in Hgv.
  destruct (np_put_spec (np_empty junk (length (nodes G)))
              (interior G ++ boundary G) (take N y)) as (u1 & Hu1 & _).
  { by rewrite known_length. }
  { apply Forall_forall. intros i Hi%known_lt.
    rewrite np_empty_length, (wf_nodes _ _ HG). lia. }
  { apply known_NoDup. }
  unfold f. rewrite (reshape2_halves _ N Hy). simpl.
  unfold displacement. rewrite Hu1. simpl. rewrite Hgv. done.
Qed.

(** An answer of the solver, of the right length, is used as it is:
    nothing checks that it solves the system. *)
Lemma f_trusts_solver (junk : nat -> R) (t : R) (y x : list R) :
  length y = 2 * N -> length x = length (boundary G) ->
  (forall A b, ghost_matrix G = Ok A -> spsolve A b = Ok x) ->
  exists u a,
    np_take u (ghost G) = Ok x /\ sp_dot (D G) u = Ok a /\
    f G junk t y = Ok (np_hstack (drop N y) a).
Proof.
  intros Hy Hx Hany.
  assert (Hv0 : length (take N y) = N) by (rewrite length_take; lia).
  destruct (ghost_values_unfold (take N y) Hv0) as (A & K & HA & _ & Hgv).
  rewrite (Hany A _ HA) in Hgv.
  destruct (np_put_spec (np_empty junk (length (nodes G)))
              (interior G ++ boundary G) (take N y)) as (u1 & Hu1 & Hl1 & _).
  { by rewrite known_length. }
  { apply Forall_forall. intros i Hi%known_lt.
    rewrite np_empty_length, (wf_nodes _ _ HG). lia. }
  { apply known_NoDup. }
  destruct (np_put_spec u1 (ghost G) x) as (u2 & Hu2 & Hl2 & _ & Hin2).
  { by rewrite ghost_length. }
  { apply Forall_forall. intros i Hi%ghost_ge. rewrite Hl1, np_empty_length. lia. }
  { apply ghost_NoDup. }
  exists u2, (map (fun r => dot r u2) (rows (D G))).
  assert (Ha : sp_dot (D G) u2 = Ok (map (fun r => dot r u2) (rows (D G)))).
  { apply sp_dot_Ok. by rewrite Hl2, Hl1, np_empty_length, (wf_D_cols _ _ HG). }
  split_and!; try done.
  unfold f. rewrite (reshape2_halves _ N Hy). simpl.
  unfold displacement. rewrite Hu1. simpl. rewrite Hgv. simpl.
  rewrite Hu2. simpl. rewrite Ha. done.
Qed.

End EvaluatorFacts.

(** * The set-up *)

(** Inversion of a sequence of binds that returned. *)
Ltac bind_inv H :=
  repeat match type of H with
  | mbind _ ?m = Ok _ =>
      let Hs := fresh "Hstep" in
      destruct m eqn:Hs; simpl in H; [|discriminate H]
  | (let '(_, _) := ?p in _) = Ok _ => destruct p
  end.

Section SetupFacts.
Context {Sc : Scalar} {E : Externals}.

Lemma elem_of_nonzero_from (k i : nat) (mask : list bool) :
  i ∈ nonzero_from k mask <-> k <= i /\ mask !! (i - k) = Some true.
Proof.
  revert k. induction mask as [|b mask IH]; intros k; simpl.
  - rewrite elem_of_nil. split; [done | by intros [_ ?]].
  - rewrite elem_of_app, IH. destruct (lt_eq_lt_dec i k) as [[Hlt| ->]|Hgt].
    + destruct b; rewrite ?list_elem_of_singleton, ?elem_of_nil; split;
        intros Hi; exfalso; destruct_or?; destruct_and?; lia.
    + rewrite Nat.sub_diag. simpl.
      destruct b; rewrite ?list_elem_of_singleton, ?elem_of_nil; split;
        intros Hi; destruct_or?; destruct_and?; simplify_eq; auto; lia.
    + replace (i - k) with (S (i - S k)) by lia. simpl.
      destruct b; rewrite ?list_elem_of_singleton, ?elem_of_nil; split;
        intros Hi; destruct_or?; destruct_and?; simplify_eq; try lia;
        auto with lia.
Qed.

(** Two masks of which exactly one holds at every position split the
    positions. *)
Lemma nonzero_from_partition {A} (p q : A -> bool) (l : list A) (k : nat) :
  Forall (fun s => p s = negb (q s)) l ->
  nonzero_from k (map p l) ++ nonzero_from k (map q l) ≡ₚ seq k (length l).
Proof.
  intros Hl. revert k. induction Hl as [|s l Hs _ IH]; intros k; simpl; [done|].
  rewrite Hs. destruct (q s); simpl.
  - rewrite <- Permutation_middle. by rewrite IH.
  - by rewrite IH.
Qed.

Lemma np_take_Z_length {A} (a : list A) (idx : list Z) (vals : list A) :
  np_take_Z a idx = Ok vals -> length vals = length idx.
Proof.
  revert vals. induction idx as [|i idx IH]; intros vals; simpl; [by intros [= <-]|].
  intros Ht. bind_inv Ht. simplify_eq/=. f_equal. by apply IH.
Qed.

Lemma np_add2_length (a b c : list point) :
  length a = length b -> np_add2 a b = Ok c -> length c = length a.
Proof.
  intros Hl. unfold np_add2. rewrite decide_True by done. intros [= <-].
  rewrite length_zip_with. lia.
Qed.

Lemma column1_length (a : list (list R)) (c : list R) :
  column1 a = Ok c -> length c = length a.
Proof.
  revert c. induction a as [|r a IH]; intros c; simpl; [by intros [= <-]|].
  destruct (r !! 1); [|done]. intros Ht. bind_inv Ht. simplify_eq/=. f_equal. by apply IH.
Qed.

(** The steps of a set-up that returned. *)
Lemma setup_inv (N : nat) (G : globals) :
  setup N = Ok G ->
  exists nodes0 ids edge_normals edges idx dist nearest on_boundary shifted
         targets btargets,
    menodes N vert smp = Ok (nodes0, ids) /\
    simplex_outward_normals vert smp = Ok edge_normals /\
    np_take ids (boundary G) = Ok edges /\
    np_take_Z edge_normals edges = Ok (normals G) /\
    neighbors nodes0 2 = Ok (idx, dist) /\
    column1 dist = Ok nearest /\
    np_min nearest = Ok (dx G) /\
    np_take nodes0 (boundary G) = Ok on_boundary /\
    np_add2 on_boundary (np_scale2 (rmul (rlit (1#2)) (dx G)) (normals G)) = Ok shifted /\
    np_take (nodes G) (interior G ++ boundary G) = Ok targets /\
    weight_matrix targets (nodes G) [(2, 0); (0, 2)] None 30 = Ok (D G) /\
    np_take (nodes G) (boundary G) = Ok btargets /\
    weight_matrix btargets (nodes G) [(1, 0); (0, 1)]
                  (Some (transpose2 (normals G))) 30 = Ok (dD G) /\
    smpid G = ids /\
    interior G = np_nonzero (map (fun s => (s =? -1)%Z) ids) /\
    boundary G = np_nonzero (map (fun s => (0 <=? s)%Z) ids) /\
    nodes G = np_vstack nodes0 shifted /\
    ghost G = seq N (length (boundary G)) /\
    length (u_init G) = length targets /\
    dudt_init G = np_zeros N /\
    u_bnd G = np_zeros (length (boundary G)) /\
    v G = np_hstack (u_init G) (dudt_init G).
Proof.
  intros Hs. unfold setup in Hs. bind_inv Hs. injection Hs as <-. simpl.
  do 11 eexists. split_and!; try done; try eassumption.
  by rewrite !length_map.
Qed.

(** The globals the set-up builds are well-shaped. *)
Lemma setup_wf (N : nat) (G : globals) :
  Contracts N -> setup N = Ok G -> wf_globals N G.
Proof.
  intros HC Hs.
  destruct (setup_inv N G Hs) as
    (nodes0 & ids & edge_normals & edges & idx & dist & nearest & on_boundary &
     shifted & targets & btargets & Hmen & Hnor & Hedges & Hnrm & Hnei & Hcol &
     Hmin & Honb & Hshift & Htar & HD & Hbtar & HdD & Hsmpid & Hint & Hbnd &
     Hnodes & Hghost & Hui & Hdudt & Hubnd & Hv).
  destruct (menodes_shape _ _ Hmen) as (Hn0 & Hids & Hge).
  assert (Hpart : interior G ++ boundary G ≡ₚ seq 0 N).
  { rewrite Hint, Hbnd, <- Hids. apply nonzero_from_partition.
    eapply Forall_impl; [exact Hge|]. intros s Hsge; simpl in *.
    destruct (Z.eqb_spec s (-1)), (Z.leb_spec 0 s); simpl; try done; lia. }
  pose proof (np_take_length _ _ _ Hedges) as Hl1.
  pose proof (np_take_Z_length _ _ _ Hnrm) as Hl2.
  pose proof (np_take_length _ _ _ Honb) as Hl6.
  pose proof (np_take_length _ _ _ Htar) as Hl8.
  pose proof (np_take_length _ _ _ Hbtar) as Hl10.
  assert (Hl7 : length shifted = length (boundary G)).
  { erewrite np_add2_length; [|..|exact Hshift]; [done|].
    unfold np_scale2. rewrite length_map. lia. }
  destruct (weight_matrix_shape _ _ _ _ _ _ HD) as (HDwf & HDr & HDc).
  destruct (weight_matrix_shape _ _ _ _ _ _ HdD) as (HdDwf & HdDr & HdDc).
  pose proof (Permutation_length Hpart) as Hlp. rewrite length_seq in Hlp.
  constructor; try done.
  - rewrite Hnodes. unfold np_vstack. rewrite length_app. lia.
  - congruence.
  - congruence.
  - rewrite Hv, Hdudt. unfold np_hstack.
    rewrite length_app, np_zeros_length, Hui, Hl8.
    rewrite length_app in *. lia.
Qed.

Lemma np_take_Z_total {A} (a : list A) (idx : list Z) :
  Forall (fun i => (0 <= i < Z.of_nat (length a))%Z) idx ->
  exists vals, np_take_Z a idx = Ok vals.
Proof.
  induction 1 as [|i idx Hi _ [xs IH]]; simpl; [by eexists|].
  unfold py_index.
  replace (i <? 0)%Z with false by (symmetry; apply Z.ltb_ge; lia).
  replace ((0 <=? i)%Z && (i <? Z.of_nat (length a))%Z) with true.
  2:{ symmetry. apply andb_true_iff. split; [apply Z.leb_le|apply Z.ltb_lt]; lia. }
  destruct (lookup_lt_is_Some_2 a (Z.to_nat i)) as [x ->]; [lia|].
  simpl. rewrite IH. by eexists.
Qed.

Lemma column1_total (a : list (list R)) :
  Forall (fun r => length r = 2) a -> exists c, column1 a = Ok c.
Proof.
  induction 1 as [|r a Hr _ [c IH]]; simpl; [by eexists|].
  destruct (lookup_lt_is_Some_2 r 1) as [x ->]; [lia|].
  rewrite IH. by eexists.
Qed.

(** X4.  Lines 15-41: when the imported routines meet their contracts and
    return (a stencil of thirty nodes needs thirty nodes), the set-up
    returns: none of its own indexing or shape steps raises. *)
Lemma setup_returns (N : nat) :
  Contracts N -> Returns N -> 30 <= N -> exists G, setup N = Ok G.
Proof.
  intros HC HR HN. unfold setup.
  destruct menodes_returns as (nodes0 & ids & Hmen & Hlt).
  destruct (menodes_shape _ _ Hmen) as (Hn0 & Hids & Hge).
  rewrite Hmen. simpl.
  destruct normals_returns as (ns & -> & Hns). simpl.
  set (interior := np_nonzero (map (fun s => (s =? -1)%Z) ids)).
  set (boundary := np_nonzero (map (fun s => (0 <=? s)%Z) ids)).
  assert (Hb : forall b, b ∈ boundary ->
            exists e, ids !! b = Some e /\ (0 <= e < Z.of_nat (length ns))%Z).
  { intros b [_ Hb]%elem_of_nonzero_from. rewrite Nat.sub_0_r in Hb.
    rewrite list_lookup_fmap in Hb. destruct (ids !! b) as [e|] eqn:He; [|done].
    injection Hb as Hb. apply Z.leb_le in Hb. exists e. split; [done|].
    rewrite Hns. split; [done|]. eapply Forall_forall in Hlt; [exact Hlt|].
    by eapply list_elem_of_lookup_2. }
  assert (Hbn : Forall (fun i => i < N) boundary).
  { apply Forall_forall. intros b (e & He & _)%Hb.
    apply lookup_lt_Some in He. lia. }
  assert (Hin : Forall (fun i => i < N) (interior ++ boundary)).
  { apply Forall_app. split; [|done]. apply Forall_forall.
    intros i [_ Hi]%elem_of_nonzero_from. rewrite Nat.sub_0_r in Hi.
    apply lookup_lt_Some in Hi. rewrite length_map in Hi. lia. }
  destruct (np_take_total ids boundary) as [edges Hedges]; [by rewrite Hids|].
  rewrite Hedges. simpl.
  destruct (np_take_Z_total ns edges) as [nrm Hnrm].
  { apply np_take_Forall2 in Hedges. apply Forall_forall. intros e He.
    apply list_elem_of_lookup_1 in He as [k Hk].
    destruct (Forall2_lookup_r _ _ _ _ _ Hedges Hk) as (b & Hbk & Hbe).
    destruct (Hb b) as (e' & He' & Hrange); [by eapply list_elem_of_lookup_2|].
    congruence. }
  rewrite Hnrm. simpl.
  destruct (neighbors_returns nodes0 2) as (idx & dist & Hnei & Hrows); [lia|].
  rewrite Hnei. simpl.
  destruct (column1_total dist Hrows) as [c Hc]. rewrite Hc. simpl.
  pose proof (column1_length _ _ Hc) as Hcl.
  rewrite (neighbors_shape _ _ _ _ Hnei), Hn0 in Hcl.
  destruct c as [|c0 c]; [simpl in Hcl; lia|]. simpl.
  destruct (np_take_total nodes0 boundary) as [onb Honb]; [by rewrite Hn0|].
  rewrite Honb. simpl.
  unfold np_add2. rewrite decide_True.
  2:{ unfold np_scale2. rewrite length_map, (np_take_Z_length _ _ _ Hnrm).
      rewrite (np_take_length _ _ _ Honb). symmetry. apply (np_take_length _ _ _ Hedges). }
  simpl.
  set (nodes1 := np_vstack nodes0 _).
  assert (Hn1 : N <= length nodes1).
  { unfold nodes1, np_vstack. rewrite length_app. lia. }
  destruct (np_take_total nodes1 (interior ++ boundary)) as [tg Htg].
  { eapply Forall_impl; [exact Hin|]. simpl. lia. }
  rewrite Htg. simpl.
  destruct (weight_matrix_returns tg nodes1 [(2, 0); (0, 2)] None 30) as [Dm ->]; [lia|].
  simpl.
  destruct (np_take_total nodes1 boundary) as [bt Hbt].
  { eapply Forall_impl; [exact Hbn|]. simpl. lia. }
  rewrite Hbt. simpl.
  destruct (weight_matrix_returns bt nodes1 [(1, 0); (0, 1)]
              (Some (transpose2 nrm)) 30) as [dDm ->]; [lia|].
  simpl. by eexists.
Qed.

End SetupFacts.

(** * Uninitialised memory does not reach the result *)

Section Junk.
Context {Sc : Scalar} {E : Externals}.

Lemma agree_on_weaken (P Q : nat -> Prop) (r r' : result (list R)) :
  (forall i, Q i -> P i) -> agree_on P r r' -> agree_on Q r r'.
Proof.
  intros HPQ. destruct r, r'; simpl; try done. intros [Hl Hag]. split; auto.
Qed.

Lemma put_all_agree (iv : list (nat * R)) (P : nat -> Prop) (a a' : list R) :
  agree_on P (Ok a) (Ok a') ->
  agree_on (fun i => P i \/ i ∈ iv.*1) (put_all a iv) (put_all a' iv).
Proof.
  revert P a a'. induction iv as [|[i x] iv IH]; intros P a a' [Hl Hag]; simpl.
  - split; [done|]. intros i [Hi|Hi]; [by apply Hag|]. by apply elem_of_nil in Hi.
  - rewrite <- Hl. destruct (decide (i < length a)) as [Hi|Hi]; [|done].
    eapply agree_on_weaken; [|apply (IH (fun j => P j \/ j = i))].
    + simpl. intros j [Hj|[->|Hj]%elem_of_cons]; auto.
    + split; [by rewrite !length_insert|]. intros j [Hj| ->].
      * destruct (decide (i = j)) as [->|Hne].
        -- rewrite !list_lookup_insert_eq; [done|lia..].
        -- rewrite !list_lookup_insert_ne by done. by apply Hag.
      * rewrite !list_lookup_insert_eq; [done|lia..].
Qed.

Lemma np_put_agree (P : nat -> Prop) (a a' : list R) (idx : list nat) (vals : list R) :
  agree_on P (Ok a) (Ok a') ->
  agree_on (fun i => P i \/ i ∈ idx) (np_put a idx vals) (np_put a' idx vals).
Proof.
  intros Hag. unfold np_put. case_decide as Hl.
  - eapply agree_on_weaken; [|by apply put_all_agree].
    simpl. intros i [Hi|Hi]; [by left|right]. rewrite fst_zip; [done|lia].
  - destruct vals as [|x [|]]; try done.
    eapply agree_on_weaken; [|by apply put_all_agree].
    simpl. intros i [Hi|Hi]; [by left|right].
    rewrite fst_zip; [done|]. rewrite length_replicate. lia.
Qed.

(** The displacement array does not depend on what [np.empty] returned,
    whatever the state vector. *)
Lemma displacement_junk (N : nat) (G : globals) (junk junk' : nat -> R) (v0 : list R) :
  wf_globals N G -> displacement G junk v0 = displacement G junk' v0.
Proof.
  intros HG. unfold displacement.
  assert (H0 : agree_on (fun _ => False)
                 (Ok (np_empty junk (length (nodes G))))
                 (Ok (np_empty junk' (length (nodes G)))))
    by (split; [by rewrite !np_empty_length | done]).
  pose proof (np_put_agree _ _ _ (interior G ++ boundary G) v0 H0) as H1.
  destruct (np_put (np_empty junk _) _ v0) as [u1|e1] eqn:Hu1,
           (np_put (np_empty junk' _) _ v0) as [u1'|e1']; simpl in *;
    try done; [|by subst].
  destruct (ghost_values G v0) as [g|e]; simpl; [|done].
  pose proof (np_put_agree _ _ _ (ghost G) g H1) as H2.
  destruct (np_put u1 _ g) as [u2|e2] eqn:Hu2, (np_put u1' _ g) as [u2'|e2'];
    simpl in *; try done; [|by subst].
  destruct H2 as [Hl H2]. f_equal. apply list_eq. intros i.
  destruct (decide (i < length u2)) as [Hi|Hi].
  - apply H2.
    apply np_put_length in Hu1, Hu2. rewrite Hu2, Hu1, np_empty_length in Hi.
    apply (all_nodes_cover N G HG), elem_of_app in Hi as [Hi|Hi]; auto.
  - rewrite !lookup_ge_None_2; [done|lia..].
Qed.

(** The evaluator reads neither its time argument nor the uninitialised
    entries of the array it allocates. *)
Lemma f_junk (N : nat) (G : globals) (junk junk' : nat -> R) (t t' : R) (y : list R) :
  wf_globals N G -> f G junk t y = f G junk' t' y.
Proof.
  intros HG. unfold f. destruct (reshape2 y) as [[v0 v1]|e]; simpl; [|done].
  by rewrite (displacement_junk N G junk junk').
Qed.

End Junk.

(** * The evaluator, step by step *)

Section EvaluatorSteps.
Context {Sc : Scalar} {E : Externals}.
Variables (N : nat) (G : globals).
Hypothesis HG : wf_globals N G.
Hypothesis Hsolve : ghost_solved G.

Lemma f_steps (junk : nat -> R) (t : R) (y : list R) :
  length y = 2 * N ->
  exists u g a,
    reshape2 y = Ok (take N y, drop N y) /\
    displacement G junk (take N y) = Ok u /\
    length u = length (nodes G) /\
    np_take u (interior G ++ boundary G) = Ok (take N y) /\
    np_take u (ghost G) = Ok g /\
    ghost_values G (take N y) = Ok g /\
    boundary_system G (take N y) g /\
    sp_dot (D G) u = Ok a /\
    length a = N /\
    f G junk t y = Ok (np_hstack (drop N y) a).
Proof.
  intros Hy.
  assert (Hv0 : length (take N y) = N) by (rewrite length_take; lia).
  destruct (displacement_spec N G HG junk (take N y) Hsolve Hv0)
    as (u & g & Hu & Hul & Hk & Hg & Hgv & Hsys).
  assert (Ha : sp_dot (D G) u = Ok (map (fun r => dot r u) (rows (D G)))).
  { apply sp_dot_Ok. by rewrite (wf_D_cols _ _ HG). }
  exists u, g, (map (fun r => dot r u) (rows (D G))). split_and!; try done.
  - by apply reshape2_halves.
  - rewrite (sp_dot_length _ _ _ (wf_D _ _ HG) Ha), (wf_D_rows _ _ HG).
    by apply known_length.
  - unfold f. rewrite (reshape2_halves _ N Hy). simpl.
    rewrite Hu. simpl. rewrite Ha. done.
Qed.

End EvaluatorSteps.

(** * The evaluator and the solver

    What [f] does is decided by what [spsolve] does on the ghost system
    of the state: every other step returns on a state of the right
    length. *)

Section EvaluatorOutcome.
Context {Sc : Scalar} {E : Externals}.
Variables (N : nat) (G : globals).
Hypothesis HG : wf_globals N G.

Lemma f_unfold (junk : nat -> R) (t : R) (y : list R) :
  length y = 2 * N ->
  exists A K k b u1,
    ghost_matrix G = Ok A /\
    sp_cols (dD G) (interior G ++ boundary G) = Ok K /\
    sp_dot K (take N y) = Ok k /\
    np_sub (u_bnd G) k = Ok b /\
    length b = nrows A /\
    np_put (np_empty junk (length (nodes G))) (interior G ++ boundary G) (take N y)
    = Ok u1 /\
    length u1 = length (nodes G) /\
    f G junk t y
    = (g ← spsolve A b;
       u ← np_put u1 (ghost G) g;
       a ← sp_dot (D G) u;
       Ok (np_hstack (drop N y) a)).
Proof.
  intros Hy.
  assert (Hv0 : length (take N y) = N) by (rewrite length_take; lia).
  destruct (ghost_matrix_shape N G HG) as (A & HA & HAwf & HAr & HAc).
  destruct (known_matrix_shape N G HG) as (K & HK & HKwf & HKr & HKc).
  assert (Hk : sp_dot K (take N y) = Ok (map (fun r => dot r (take N y)) (rows K)))
    by (apply sp_dot_Ok; lia).
  pose proof (sp_dot_length _ _ _ HKwf Hk) as Hkl.
  assert (Hb : np_sub (u_bnd G) (map (fun r => dot r (take N y)) (rows K))
               = Ok (zip_with rsub (u_bnd G) (map (fun r => dot r (take N y)) (rows K)))).
  { unfold np_sub, np_zip_with. rewrite decide_True; [done|].
    rewrite (wf_u_bnd _ _ HG), np_zeros_length. lia. }
  destruct (np_put_spec (np_empty junk (length (nodes G)))
              (interior G ++ boundary G) (take N y)) as (u1 & Hu1 & Hl1 & _).
  { by rewrite (known_length N G HG). }
  { apply Forall_forall. intros i Hi%(known_lt N G HG).
    rewrite np_empty_length, (wf_nodes _ _ HG). lia. }
  { apply (known_NoDup N G HG). }
  eexists A, K, _, _, u1. split_and!; try done.
  - rewrite length_zip_with, (wf_u_bnd _ _ HG), np_zeros_length. lia.
  - by rewrite Hl1, np_empty_length.
  - unfold f. rewrite (reshape2_halves _ N Hy). simpl.
    unfold displacement. rewrite Hu1. simpl.
    unfold ghost_values. unfold ghost_matrix in HA. rewrite HA. simpl.
    rewrite HK. simpl. rewrite Hk. simpl. rewrite Hb. simpl.
    by destruct (spsolve A _).
Qed.

(** Whatever [f] returns on a state of the right length has that length. *)
Lemma f_returns_length (junk : nat -> R) (t : R) (y r : list R) :
  length y = 2 * N -> f G junk t y = Ok r ->
  r = np_hstack (drop N y) (drop N r) /\ length r = length y.
Proof.
  intros Hy Hf.
  destruct (f_unfold junk t y Hy) as (A & K & k & b & u1 & _ & _ & _ & _ & _ & _ & Hl1 & Hfy).
  rewrite Hfy in Hf. clear Hfy.
  destruct (spsolve A b) as [g|e]; simpl in Hf; [|done].
  destruct (np_put u1 (ghost G) g) as [u|e] eqn:Hu; simpl in Hf; [|done].
  destruct (sp_dot (D G) u) as [a|e] eqn:Ha; simpl in Hf; [|done].
  injection Hf as <-.
  pose proof (sp_dot_length _ _ _ (wf_D _ _ HG) Ha) as Hal.
  rewrite (wf_D_rows _ _ HG), (known_length N G HG) in Hal.
  unfold np_hstack. split.
  - rewrite drop_app_length'; [done|]. rewrite length_drop. lia.
  - rewrite length_app, length_drop. lia.
Qed.

(** When the solver answers, [f] returns. *)
Lemma f_length (junk : nat -> R) (t : R) (y : list R) :
  ghost_answered G -> length y = 2 * N ->
  exists y', f G junk t y = Ok y' /\ length y' = length y.
Proof.
  intros Hans Hy.
  destruct (f_unfold junk t y Hy)
    as (A & K & k & b & u1 & HA & _ & _ & _ & Hbl & _ & Hl1 & Hfy).
  destruct (ghost_matrix_shape N G HG) as (A' & HA' & _ & _ & HAc).
  rewrite HA in HA'. injection HA' as <-.
  destruct (Hans A b HA Hbl) as (x & Hx & Hxl).
  destruct (np_put_spec u1 (ghost G) x) as (u2 & Hu2 & Hl2 & _).
  { lia. }
  { apply Forall_forall. intros i Hi%(ghost_ge N G HG). rewrite Hl1. lia. }
  { apply (ghost_NoDup N G HG). }
  assert (Ha : sp_dot (D G) u2 = Ok (map (fun r => dot r u2) (rows (D G)))).
  { apply sp_dot_Ok. by rewrite Hl2, Hl1, (wf_D_cols _ _ HG). }
  assert (Hf : f G junk t y = Ok (np_hstack (drop N y) (map (fun r => dot r u2) (rows (D G))))).
  { rewrite Hfy, Hx. simpl. rewrite Hu2. simpl. rewrite Ha. done. }
  eexists. split; [exact Hf|]. by apply (f_returns_length junk t y).
Qed.

(** An exact solver answers. *)
Lemma ghost_solved_answered : ghost_solved G -> ghost_answered G.
Proof.
  intros Hsolve A b HA Hb. destruct (Hsolve A HA b Hb) as (x & Hx & Hxl & _).
  by exists x.
Qed.

End EvaluatorOutcome.

(** * Uniqueness of the displacement array *)

Section Uniqueness.
Context {Sc : Scalar} {EA : ExactArith} {E : Externals}.
Variables (N : nat) (G : globals).
Hypothesis HG : wf_globals N G.

Add Ring scalar_ring_uniq : scalar_ring.

Lemma boundary_system_inv (A K : matrix) (v0 g : list R) :
  sp_cols (dD G) (ghost G) = Ok A ->
  sp_cols (dD G) (interior G ++ boundary G) = Ok K ->
  boundary_system G v0 g <->
  exists k b, sp_dot K v0 = Ok k /\ np_sub (u_bnd G) k = Ok b /\ sp_dot A g = Ok b.
Proof.
  intros HA HK. split.
  - intros (A' & K' & k & b & HA' & HK' & Hk & Hb & Hg).
    rewrite HA in HA'. rewrite HK in HK'. injection HA' as <-. injection HK' as <-.
    by exists k, b.
  - intros (k & b & Hk & Hb & Hg). exists A, K, k, b. done.
Qed.

Lemma sp_dot_inv (M : matrix) (x y : list R) :
  sp_dot M x = Ok y -> length x = ncols M /\ y = map (fun r => dot r x) (rows M).
Proof. unfold sp_dot. case_decide; [|done]. by intros [= <-]. Qed.

Lemma np_sub_Ok (a b : list R) :
  length a = length b -> np_sub a b = Ok (zip_with rsub a b).
Proof. intros Hl. unfold np_sub, np_zip_with. by rewrite decide_True. Qed.

(** Given the known values, the displacement array is the only array
    that carries them and whose ghost values solve the boundary system. *)
Lemma displacement_unique (junk : nat -> R) (v0 u g : list R) :
  ghost_solved G -> ghost_nonsingular G ->
  length u = length (nodes G) ->
  np_take u (interior G ++ boundary G) = Ok v0 ->
  np_take u (ghost G) = Ok g ->
  boundary_system G v0 g ->
  displacement G junk v0 = Ok u.
Proof.
  intros Hsolve Hns Hul Hk Hg Hsys.
  assert (Hv0 : length v0 = N).
  { rewrite (np_take_length _ _ _ Hk). by apply known_length. }
  destruct (displacement_spec N G HG junk v0 Hsolve Hv0)
    as (u' & g' & Hu' & Hul' & Hk' & Hg' & _ & Hsys').
  destruct (ghost_matrix_shape N G HG) as (A & HA & HAwf & HAr & HAc).
  destruct (known_matrix_shape N G HG) as (K & HK & _).
  apply (boundary_system_inv A K) in Hsys as (k & b & Hkv & Hb & HAg); [|done..].
  apply (boundary_system_inv A K) in Hsys' as (k' & b' & Hkv' & Hb' & HAg'); [|done..].
  rewrite Hkv in Hkv'. injection Hkv' as <-. rewrite Hb in Hb'. injection Hb' as <-.
  assert (g = g') as <-.
  { apply (Hns A HA).
    - rewrite HAc. apply (np_take_length _ _ _ Hg).
    - rewrite HAc. apply (np_take_length _ _ _ Hg').
    - congruence. }
  rewrite Hu'. f_equal.
  apply (np_take_determines u' u ((interior G ++ boundary G) ++ ghost G) (v0 ++ g)).
  - congruence.
  - intros i Hi. apply (all_nodes_cover N G HG). lia.
  - by apply np_take_app.
  - by apply np_take_app.
Qed.

Lemma f_unique (junk : nat -> R) (t : R) (y u g : list R) :
  ghost_solved G -> ghost_nonsingular G ->
  length y = 2 * N ->
  length u = length (nodes G) ->
  np_take u (interior G ++ boundary G) = Ok (take N y) ->
  np_take u (ghost G) = Ok g ->
  boundary_system G (take N y) g ->
  f G junk t y = Ok (np_hstack (drop N y) (map (fun r => dot r u) (rows (D G)))).
Proof.
  intros Hsolve Hns Hy Hul Hk Hg Hsys. unfold f.
  rewrite (reshape2_halves _ N Hy). simpl.
  rewrite (displacement_unique junk _ u g) by done. simpl.
  rewrite sp_dot_Ok by (by rewrite (wf_D_cols _ _ HG)). done.
Qed.

(** Arrays of zeros. *)
Lemma np_take_zeros (n : nat) (idx : list nat) :
  Forall (fun i => i < n) idx -> np_take (np_zeros n) idx = Ok (np_zeros (length idx)).
Proof.
  intros Hb. apply np_take_Forall2. induction Hb as [|i idx Hi _ IH]; [constructor|].
  constructor; [|exact IH]. unfold np_zeros. by apply lookup_replicate_2.
Qed.

Lemma sub_zeros (n : nat) : zip_with rsub (np_zeros n) (np_zeros n) = np_zeros n.
Proof.
  unfold np_zeros. induction n as [|n IH]; simpl; [done|]. rewrite IH. f_equal. ring.
Qed.

Lemma boundary_system_zeros :
  boundary_system G (np_zeros N) (np_zeros (length (boundary G))).
Proof.
  destruct (ghost_matrix_shape N G HG) as (A & HA & HAwf & HAr & HAc).
  destruct (known_matrix_shape N G HG) as (K & HK & HKwf & HKr & HKc).
  exists A, K, (np_zeros (length (boundary G))), (np_zeros (length (boundary G))).
  split_and!; try done.
  - rewrite <- HKr, <- HKc. by apply sp_dot_zeros.
  - rewrite (wf_u_bnd _ _ HG), np_sub_Ok by done. by rewrite sub_zeros.
  - rewrite <- HAr at 2. rewrite <- (ghost_length N G HG), <- HAc. by apply sp_dot_zeros.
Qed.

(** Linear combinations. *)
Lemma np_take_axpby (a b : R) (x y vx vy : list R) (idx : list nat) :
  np_take x idx = Ok vx -> np_take y idx = Ok vy ->
  np_take (axpby a x b y) idx = Ok (axpby a vx b vy).
Proof.
  rewrite !np_take_Forall2. intros Hx. revert vy.
  induction Hx as [|i p idx vx Hi _ IH]; intros vy Hy.
  - inversion Hy; subst. constructor.
  - inversion Hy as [|? q ? vy' Hq Hy']; subst. constructor; [|by apply IH].
    unfold axpby, np_scale. rewrite lookup_zip_with, !list_lookup_fmap, Hi, Hq. done.
Qed.

Lemma axpby_length (a b : R) (x y : list R) :
  length x = length y -> length (axpby a x b y) = length x.
Proof.
  intros Hl. unfold axpby, np_scale. rewrite length_zip_with, !length_map. lia.
Qed.

Lemma axpby_app (a b : R) (x1 x2 y1 y2 : list R) :
  length x1 = length y1 ->
  axpby a (x1 ++ x2) b (y1 ++ y2) = axpby a x1 b y1 ++ axpby a x2 b y2.
Proof.
  intros Hl. unfold axpby, np_scale. rewrite !map_app.
  apply zip_with_app. by rewrite !length_map.
Qed.

Lemma axpby_take (a b : R) (x y : list R) (n : nat) :
  take n (axpby a x b y) = axpby a (take n x) b (take n y).
Proof.
  unfold axpby, np_scale. revert n y.
  induction x as [|p x IH]; intros [|n] [|q y]; simpl; try done.
  by rewrite IH.
Qed.

Lemma axpby_drop (a b : R) (x y : list R) (n : nat) :
  drop n (axpby a x b y) = axpby a (drop n x) b (drop n y).
Proof.
  unfold axpby, np_scale. revert n y.
  induction x as [|p x IH]; intros [|n] [|q y]; simpl; try done.
  by rewrite zip_with_nil_r.
Qed.

Lemma sub_zeros_axpby (a b : R) (k1 k2 : list R) (n : nat) :
  length k1 = n -> length k2 = n ->
  zip_with rsub (np_zeros n) (axpby a k1 b k2)
  = axpby a (zip_with rsub (np_zeros n) k1) b (zip_with rsub (np_zeros n) k2).
Proof.
  revert k1 k2. unfold np_zeros, axpby, np_scale.
  induction n as [|n IH]; intros [|p k1] [|q k2] H1 H2; simplify_eq/=; [done|].
  rewrite IH by done. f_equal. ring.
Qed.

Lemma boundary_system_axpby (a b : R) (d1 d2 g1 g2 : list R) :
  length g1 = length (boundary G) -> length g2 = length (boundary G) ->
  boundary_system G d1 g1 -> boundary_system G d2 g2 ->
  boundary_system G (axpby a d1 b d2) (axpby a g1 b g2).
Proof.
  intros Hg1 Hg2 Hs1 Hs2.
  destruct (ghost_matrix_shape N G HG) as (A & HA & HAwf & HAr & HAc).
  destruct (known_matrix_shape N G HG) as (K & HK & HKwf & HKr & HKc).
  apply (boundary_system_inv A K) in Hs1 as (k1 & b1 & Hk1 & Hb1 & HA1); [|done..].
  apply (boundary_system_inv A K) in Hs2 as (k2 & b2 & Hk2 & Hb2 & HA2); [|done..].
  apply (boundary_system_inv A K); [done..|].
  pose proof (sp_dot_length _ _ _ HKwf Hk1) as Hl1.
  pose proof (sp_dot_length _ _ _ HKwf Hk2) as Hl2.
  apply sp_dot_inv in Hk1 as [Hd1 ->], Hk2 as [Hd2 ->].
  rewrite (wf_u_bnd _ _ HG) in *.
  rewrite np_sub_Ok in Hb1, Hb2 by (rewrite np_zeros_length; lia).
  apply sp_dot_inv in HA1 as [_ HA1], HA2 as [_ HA2].
  injection Hb1 as Hb1. injection Hb2 as Hb2. subst b1 b2.
  eexists _, _. split_and!.
  - by apply sp_dot_lincomb.
  - apply np_sub_Ok. rewrite np_zeros_length, axpby_length; lia.
  - rewrite sp_dot_lincomb by (rewrite HAc, (ghost_length N G HG); lia).
    f_equal. rewrite <- HA1, <- HA2.
    symmetry. apply sub_zeros_axpby; lia.
Qed.

(** A field that satisfies the boundary condition. *)
Lemma add_sub_cancel (k x c : list R) :
  length k = length x -> zip_with radd k x = c -> zip_with rsub c k = x.
Proof.
  intros Hl <-. revert x Hl.
  induction k as [|p k IH]; intros [|q x] Hl; simplify_eq/=; [done|].
  rewrite IH by done. f_equal. ring.
Qed.

Lemma boundary_system_of_condition (u v0 g : list R) :
  length u = length (nodes G) ->
  sp_dot (dD G) u = Ok (u_bnd G) ->
  np_take u (interior G ++ boundary G) = Ok v0 ->
  np_take u (ghost G) = Ok g ->
  boundary_system G v0 g.
Proof.
  intros Hul Hcond Hk Hg.
  destruct (ghost_matrix_shape N G HG) as (A & HA & HAwf & HAr & HAc).
  destruct (known_matrix_shape N G HG) as (K & HK & HKwf & HKr & HKc).
  apply (boundary_system_inv A K); [done..|].
  assert (HKv : sp_dot K v0 = Ok (map (fun r => dot r v0) (rows K))).
  { apply sp_dot_Ok. rewrite HKc, (np_take_length _ _ _ Hk). by apply known_length. }
  assert (HAg : sp_dot A g = Ok (map (fun r => dot r g) (rows A))).
  { apply sp_dot_Ok. rewrite HAc. apply (np_take_length _ _ _ Hg). }
  pose proof (sp_dot_length _ _ _ HKwf HKv) as Hl1.
  pose proof (sp_dot_length _ _ _ HAwf HAg) as Hl2.
  eexists _, _. split_and!; [exact HKv| |exact HAg].
  rewrite np_sub_Ok by (rewrite (wf_u_bnd _ _ HG), np_zeros_length; lia).
  f_equal. apply add_sub_cancel; [lia|].
  assert (Hsplit : sp_dot (dD G) u = Ok (zip_with radd (map (fun r => dot r v0) (rows K))
                                                   (map (fun r => dot r g) (rows A)))).
  { apply (sp_dot_split (dD G) K A u (interior G ++ boundary G) (ghost G) v0 g);
      try done.
    - apply (wf_dD _ _ HG).
    - by rewrite (wf_dD_cols _ _ HG).
    - rewrite Hul. apply (all_nodes N G HG). }
  congruence.
Qed.

End Uniqueness.

(** * The claims *)

Section Claims.
Context {Sc : Scalar} {E : Externals}.

(** C1.  For a state vector [y] of length [2*(interior count + boundary
    count)], [f] splits [y] in a displacement half [d] and a velocity
    half [w]; builds the array [u] of the displacements at all nodes,
    equal to [d] at the interior and boundary nodes and, at the ghost
    nodes, to a solution [g] of the boundary system
    [dD[:,ghost] @ g = u_bnd - dD[:,interior+boundary] @ d]; and returns
    [w] followed by [D @ u]. *)
Theorem f_computes (N : nat) (G : globals) (junk : nat -> R) (t : R) (y : list R) :
  Contracts N -> setup N = Ok G -> ghost_solved G ->
  length y = 2 * (length (interior G) + length (boundary G)) ->
  exists d w u g a,
    reshape2 y = Ok (d, w) /\ y = d ++ w /\ length d = length w /\
    displacement G junk d = Ok u /\
    length u = length (nodes G) /\
    np_take u (interior G ++ boundary G) = Ok d /\
    np_take u (ghost G) = Ok g /\
    boundary_system G d g /\
    sp_dot (D G) u = Ok a /\
    f G junk t y = Ok (np_hstack w a).
Proof.
  intros HC Hs Hsolve Hy. pose proof (setup_wf N G HC Hs) as HG.
  rewrite (half_count N G HG) in Hy.
  destruct (f_steps N G HG Hsolve junk t y Hy)
    as (u & g & a & Hr & Hd & Hul & Hk & Hg & _ & Hsys & Ha & _ & Hf).
  exists (take N y), (drop N y), u, g, a. split_and!; try done.
  - by rewrite take_drop.
  - rewrite length_take, length_drop. lia.
Qed.

(** C6.  The ghost system is square by construction: there is one ghost
    node per boundary node, and [dD[:,ghost]] has one row per boundary
    node and one column per ghost node. *)
Theorem ghost_system_square (N : nat) (G : globals) :
  Contracts N -> setup N = Ok G ->
  length (ghost G) = length (boundary G) /\
  exists A, ghost_matrix G = Ok A /\ wf_matrix A /\
    nrows A = length (boundary G) /\ ncols A = length (ghost G) /\
    nrows A = ncols A.
Proof.
  intros HC Hs. pose proof (setup_wf N G HC Hs) as HG.
  pose proof (ghost_length N G HG) as Hgl. split; [done|].
  destruct (ghost_matrix_shape N G HG) as (A & HA & Hwf & Hr & Hc).
  exists A. split_and!; try done. congruence.
Qed.

(** C10.  The result of [f] depends neither on the time argument nor on
    the contents of the memory [np.empty] hands out: two calls on the
    same state vector return the same result. *)
Theorem f_time_independent (N : nat) (G : globals) (junk1 junk2 : nat -> R)
        (t1 t2 : R) (y : list R) :
  Contracts N -> setup N = Ok G ->
  f G junk1 t1 y = f G junk2 t2 y.
Proof.
  intros HC Hs. eapply f_junk, setup_wf; done.
Qed.

(** C2, as amended.  [f] makes no check of its own, neither of the ghost
    matrix nor of what the solver answers, so that the outcome of a call
    on a state of the right length is the outcome of [spsolve] on the
    ghost system [A @ g = b] of that state, whether or not [A] is
    singular: an exception of [spsolve] is the exception of the call; an
    answer with one entry per ghost node is written to the ghost entries
    as it is and the call returns the derivative computed from it; and
    the call raises in no other case than the solver raising or
    answering with an array of another length. *)
Theorem solver_outcome_surfaces (N : nat) (G : globals) (junk : nat -> R) (t : R)
        (y : list R) :
  Contracts N -> setup N = Ok G ->
  length y = 2 * (length (interior G) + length (boundary G)) ->
  exists A K k b,
    ghost_matrix G = Ok A /\
    sp_cols (dD G) (interior G ++ boundary G) = Ok K /\
    sp_dot K (take (length (interior G) + length (boundary G)) y) = Ok k /\
    np_sub (u_bnd G) k = Ok b /\
    (forall e, spsolve A b = Raise e -> f G junk t y = Raise e) /\
    (forall x, spsolve A b = Ok x -> length x = length (ghost G) ->
       exists u a,
         displacement G junk (take (length (interior G) + length (boundary G)) y) = Ok u /\
         np_take u (ghost G) = Ok x /\
         sp_dot (D G) u = Ok a /\
         f G junk t y
         = Ok (np_hstack (drop (length (interior G) + length (boundary G)) y) a)) /\
    (forall e, f G junk t y = Raise e ->
       spsolve A b = Raise e \/
       exists x, spsolve A b = Ok x /\ length x <> length (ghost G)).
Proof.
  intros HC Hs Hy. pose proof (setup_wf N G HC Hs) as HG.
  rewrite (half_count N G HG) in *.
  destruct (f_unfold N G HG junk t y Hy)
    as (A & K & k & b & u1 & HA & HK & Hk & Hb & Hbl & Hu1 & Hl1 & Hfy).
  assert (Hgv : ghost_values G (take N y) = spsolve A b).
  { unfold ghost_values. unfold ghost_matrix in HA. rewrite HA. simpl. rewrite HK. simpl.
    rewrite Hk. simpl. rewrite Hb. done. }
  assert (Hans : forall x, spsolve A b = Ok x -> length x = length (ghost G) ->
            exists u a,
              displacement G junk (take N y) = Ok u /\
              np_take u (ghost G) = Ok x /\
              sp_dot (D G) u = Ok a /\
              f G junk t y = Ok (np_hstack (drop N y) a)).
  { intros x Hx Hxl.
    destruct (np_put_spec u1 (ghost G) x) as (u2 & Hu2 & Hl2 & _ & Hin2).
    { done. }
    { apply Forall_forall. intros i Hi%(ghost_ge N G HG). rewrite Hl1. lia. }
    { apply (ghost_NoDup N G HG). }
    assert (Ha : sp_dot (D G) u2 = Ok (map (fun r => dot r u2) (rows (D G)))).
    { apply sp_dot_Ok. by rewrite Hl2, Hl1, (wf_D_cols _ _ HG). }
    exists u2, (map (fun r => dot r u2) (rows (D G))). split_and!; try done.
    - unfold displacement. rewrite Hu1. simpl. rewrite Hgv, Hx. done.
    - rewrite Hfy, Hx. simpl. rewrite Hu2. simpl. rewrite Ha. done. }
  exists A, K, k, b. split_and!; try done.
  - intros e He. rewrite Hfy, He. done.
  - intros e He. destruct (spsolve A b) as [x|e'] eqn:Hx.
    + right. exists x. split; [done|]. intros Hxl.
      destruct (Hans x eq_refl Hxl) as (u & a & _ & _ & _ & Hf). congruence.
    + left. rewrite Hfy in He. simpl in He. congruence.
Qed.

(** The loop keeps the length of the integrator's state. *)
Lemma loop_length (N : nat) (G : globals) (junk : nat -> R) (ts : list R) (s : loop_state) :
  wf_globals N G -> ghost_answered G -> integrator_contract (2 * N) ->
  length (integ_y s) = 2 * N ->
  exists s', loop G junk s ts = Ok s' /\ length (integ_y s') = 2 * N.
Proof.
  intros HG Hans Hode. revert s. induction ts as [|t ts IH]; intros s Hs; simpl.
  - by exists s.
  - destruct (Hode (f G junk)) with (t0 := integ_t s) (y := integ_y s) (t1 := t)
      as (t' & y' & Hy' & Hl'); [|done|].
    { intros t' y Hy. destruct (f_length N G HG junk t' y Hans Hy) as (y' & Hf & Hl).
      exists y'. split; [done|lia]. }
    unfold loop_body. rewrite Hy'. simpl.
    rewrite (reshape2_halves _ N Hl'). simpl.
    apply IH. done.
Qed.

(** C4.  On a state vector of length [2*(interior count + boundary
    count)], whatever [f] returns has the length of the state, with no
    assumption on the solver; the initial state has that length.  When
    [spsolve] answers on the ghost system (with one entry per ghost node,
    exact or not), [f] returns on every such state; and when moreover the
    integrator returns states of the length it was given, the
    integrator's state has that length after every pass of the
    integration loop. *)
Theorem state_length_invariant (N : nat) (G : globals) (junk : nat -> R) :
  Contracts N -> setup N = Ok G ->
  (forall t y r, length y = 2 * (length (interior G) + length (boundary G)) ->
     f G junk t y = Ok r -> length r = length y) /\
  length (v G) = 2 * (length (interior G) + length (boundary G)) /\
  (ghost_answered G ->
   forall t y, length y = 2 * (length (interior G) + length (boundary G)) ->
     exists y', f G junk t y = Ok y' /\ length y' = length y) /\
  (ghost_answered G ->
   integrator_contract (2 * (length (interior G) + length (boundary G))) ->
   forall k, exists s, after_checkpoints G junk k = Ok s /\
     length (integ_y s) = 2 * (length (interior G) + length (boundary G))).
Proof.
  intros HC Hs. pose proof (setup_wf N G HC Hs) as HG.
  pose proof (wf_v _ _ HG) as Hv. rewrite (half_count N G HG) in *.
  split_and!; [|done| |].
  - intros t y r Hy Hf. by apply (f_returns_length N G HG junk t y r).
  - intros Hans t y Hy. by apply (f_length N G HG).
  - intros Hans Hode k. unfold after_checkpoints.
    assert (exists t0, py_index times 0 = Ok t0) as [t0 ->] by (by eexists).
    simpl. by apply (loop_length N G).
Qed.

End Claims.

Section AlgebraicClaims.
Context {Sc : Scalar} {EA : ExactArith} {E : Externals}.

(** C7.  The all-zero state vector is a fixed point: [f(t,0) = 0]. *)
Theorem zero_fixed_point (N : nat) (G : globals) (junk : nat -> R) (t : R) :
  Contracts N -> setup N = Ok G -> ghost_solved G -> ghost_nonsingular G ->
  f G junk t (np_zeros (2 * (length (interior G) + length (boundary G))))
  = Ok (np_zeros (2 * (length (interior G) + length (boundary G)))).
Proof.
  intros HC Hs Hsolve Hns. pose proof (setup_wf N G HC Hs) as HG.
  rewrite (half_count N G HG).
  rewrite (f_unique N G HG junk t _ (np_zeros (length (nodes G)))
             (np_zeros (length (boundary G)))); try done.
  - f_equal. unfold np_hstack.
    pose proof (sp_dot_zeros (D G) (wf_D _ _ HG)) as Hz.
    rewrite sp_dot_Ok in Hz by apply np_zeros_length. injection Hz as Hz.
    rewrite <- (wf_D_cols _ _ HG), Hz, (wf_D_rows _ _ HG), (known_length N G HG).
    unfold np_zeros. rewrite drop_replicate, <- replicate_add. f_equal. lia.
  - apply np_zeros_length.
  - apply np_zeros_length.
  - unfold np_zeros at 2. rewrite take_replicate.
    replace (N `min` (2 * N)) with (length (interior G ++ boundary G))
      by (rewrite (known_length N G HG); lia).
    apply np_take_zeros, Forall_forall. intros i Hi%(known_lt N G HG).
    rewrite (wf_nodes _ _ HG). lia.
  - rewrite <- (ghost_length N G HG). apply np_take_zeros, Forall_forall.
    intros i Hi%(ghost_ge N G HG). lia.
  - unfold np_zeros at 1. rewrite take_replicate.
    replace (N `min` (2 * N)) with N by lia. by apply boundary_system_zeros.
Qed.

(** C3.  [f] is linear in the state vector:
    [f(t, a*y1 + b*y2) = a*f(t,y1) + b*f(t,y2)]. *)
Theorem f_linear (N : nat) (G : globals) (junk1 junk2 junk3 : nat -> R)
        (t a b : R) (y1 y2 : list R) :
  Contracts N -> setup N = Ok G -> ghost_solved G -> ghost_nonsingular G ->
  length y1 = 2 * (length (interior G) + length (boundary G)) ->
  length y2 = 2 * (length (interior G) + length (boundary G)) ->
  exists o1 o2 w o,
    f G junk1 t y1 = Ok o1 /\ f G junk2 t y2 = Ok o2 /\
    lincomb a y1 b y2 = Ok w /\
    f G junk3 t w = Ok o /\
    lincomb a o1 b o2 = Ok o.
Proof.
  intros HC Hs Hsolve Hns Hy1 Hy2. pose proof (setup_wf N G HC Hs) as HG.
  rewrite (half_count N G HG) in Hy1, Hy2.
  destruct (f_steps N G HG Hsolve junk1 t y1 Hy1)
    as (u1 & g1 & a1 & _ & _ & Hul1 & Hk1 & Hg1 & _ & Hsys1 & Ha1 & Hal1 & Hf1).
  destruct (f_steps N G HG Hsolve junk2 t y2 Hy2)
    as (u2 & g2 & a2 & _ & _ & Hul2 & Hk2 & Hg2 & _ & Hsys2 & Ha2 & Hal2 & Hf2).
  pose proof (np_take_length _ _ _ Hg1) as Hgl1.
  pose proof (np_take_length _ _ _ Hg2) as Hgl2.
  rewrite (ghost_length N G HG) in Hgl1, Hgl2.
  exists (np_hstack (drop N y1) a1), (np_hstack (drop N y2) a2), (axpby a y1 b y2).
  eexists. split_and!; [done|done|apply lincomb_Ok; lia| |].
  - apply (f_unique N G HG junk3 t _ (axpby a u1 b u2) (axpby a g1 b g2)); try done.
    + rewrite axpby_length; lia.
    + rewrite axpby_length; lia.
    + rewrite axpby_take. by apply np_take_axpby.
    + by apply np_take_axpby.
    + rewrite axpby_take. by apply (boundary_system_axpby N G).
  - rewrite lincomb_Ok.
    2:{ unfold np_hstack. rewrite !length_app, !length_drop. lia. }
    f_equal. unfold np_hstack. rewrite axpby_app by (rewrite !length_drop; lia).
    rewrite axpby_drop. f_equal.
    apply sp_dot_inv in Ha1 as [Hc1 ->], Ha2 as [Hc2 ->].
    pose proof (sp_dot_lincomb (D G) a b u1 u2 Hc1 Hc2) as Hlin.
    rewrite sp_dot_Ok in Hlin by (rewrite axpby_length; lia).
    by injection Hlin as <-.
Qed.

(** C5.  Let [u_full] be a field over all nodes that satisfies the
    boundary condition, [dD @ u_full = u_bnd].  From its values [d] at
    the interior and boundary nodes, the ghost solve returns its values
    [g] at the ghost nodes, the reconstructed field is [u_full], and the
    residual [dD @ u - u_bnd] of the reconstructed field is zero. *)
Theorem boundary_consistency (N : nat) (G : globals) (junk : nat -> R)
        (u_full d g : list R) :
  Contracts N -> setup N = Ok G -> ghost_solved G -> ghost_nonsingular G ->
  length u_full = length (nodes G) ->
  sp_dot (dD G) u_full = Ok (u_bnd G) ->
  np_take u_full (interior G ++ boundary G) = Ok d ->
  np_take u_full (ghost G) = Ok g ->
  ghost_values G d = Ok g /\
  exists u r,
    displacement G junk d = Ok u /\ u = u_full /\
    sp_dot (dD G) u = Ok r /\
    np_sub r (u_bnd G) = Ok (np_zeros (length (boundary G))).
Proof.
  intros HC Hs Hsolve Hns Hul Hcond Hd Hg. pose proof (setup_wf N G HC Hs) as HG.
  pose proof (boundary_system_of_condition N G HG u_full d g Hul Hcond Hd Hg) as Hsys.
  pose proof (displacement_unique N G HG junk d u_full g Hsolve Hns Hul Hd Hg Hsys) as Hu.
  split.
  - assert (Hdl : length d = N).
    { rewrite (np_take_length _ _ _ Hd). by apply known_length. }
    destruct (displacement_spec N G HG junk d Hsolve Hdl)
      as (u' & g' & Hu' & _ & _ & Hg' & Hgv & _).
    rewrite Hu in Hu'. injection Hu' as <-. congruence.
  - exists u_full, (u_bnd G). split_and!; try done.
    rewrite (wf_u_bnd _ _ HG), np_sub_Ok by done. by rewrite sub_zeros.
Qed.

End AlgebraicClaims.

(** * The ghost nodes *)

Section GhostNodes.
Context {Sc : Scalar} {TO : TotalOrder} {E : Externals}.

Lemma rleb_refl (a : R) : rleb a a = true.
Proof. by destruct (rleb_total a a). Qed.

Lemma rmin_le_l (a b : R) : rleb (rmin a b) a = true.
Proof.
  unfold rmin. destruct (rleb a b) eqn:Hab; [apply rleb_refl|].
  destruct (rleb_total a b); congruence.
Qed.

Lemma rmin_le_r (a b : R) : rleb (rmin a b) b = true.
Proof. unfold rmin. destruct (rleb a b) eqn:Hab; [done|apply rleb_refl]. Qed.

Lemma foldl_rmin_spec (l : list R) (x : R) :
  foldl rmin x l ∈ x :: l /\
  forall y, y ∈ x :: l -> rleb (foldl rmin x l) y = true.
Proof.
  revert x. induction l as [|z l IH]; intros x; simpl.
  - split; [by left|]. intros y ->%list_elem_of_singleton. apply rleb_refl.
  - destruct (IH (rmin x z)) as [Hin Hle]. split.
    + apply elem_of_cons in Hin as [Hin|Hin]; [|by do 2 right].
      rewrite Hin. unfold rmin. destruct (rleb x z); [by left|right; by left].
    + intros y Hy. apply elem_of_cons in Hy as [->|Hy].
      * eapply rleb_trans; [apply Hle; by left|apply rmin_le_l].
      * apply elem_of_cons in Hy as [->|Hy].
        -- eapply rleb_trans; [apply Hle; by left|apply rmin_le_r].
        -- apply Hle. by right.
Qed.

(** [np.min] returns an entry that is below every entry. *)
Lemma np_min_spec (l : list R) (m : R) :
  np_min l = Ok m -> m ∈ l /\ forall y, y ∈ l -> rleb m y = true.
Proof.
  destruct l as [|x l]; simpl; [done|]. intros [= <-]. apply foldl_rmin_spec.
Qed.

Lemma column1_Forall2 (a : list (list R)) (c : list R) :
  column1 a = Ok c -> Forall2 (fun row x => row !! 1 = Some x) a c.
Proof.
  revert c. induction a as [|r a IH]; intros c; simpl.
  - intros [= <-]. constructor.
  - destruct (r !! 1) as [x|] eqn:Hx; [|done]. intros Ht. bind_inv Ht.
    injection Ht as <-. constructor; [done|]. by apply IH.
Qed.

Lemma np_take_Z_Forall2 {A} (a : list A) (idx : list Z) (vals : list A) :
  np_take_Z a idx = Ok vals -> Forall2 (fun i x => py_index a i = Ok x) idx vals.
Proof.
  revert vals. induction idx as [|i idx IH]; intros vals; simpl.
  - intros [= <-]. constructor.
  - intros Ht. bind_inv Ht. injection Ht as <-. constructor; [done|]. by apply IH.
Qed.

(** C9.  The ghost nodes are appended after the [N] nodes [menodes]
    returned, one per boundary node, so that their indices are [N], ...,
    [N + len(boundary) - 1]; the ghost node of the [k]-th boundary node
    lies at that node's position plus [0.5*dx] times the normal of the
    edge the node is on; and [dx] is the least, over the [N] nodes, of
    the distance to the nearest other node. *)
Theorem ghost_nodes_construction (N : nat) (G : globals) :
  Contracts N -> setup N = Ok G ->
  exists nodes0 ids edge_normals idx dist,
    menodes N vert smp = Ok (nodes0, ids) /\
    simplex_outward_normals vert smp = Ok edge_normals /\
    neighbors nodes0 2 = Ok (idx, dist) /\
    length nodes0 = N /\
    take N (nodes G) = nodes0 /\
    length (nodes G) = N + length (boundary G) /\
    ghost G = seq N (length (boundary G)) /\
    (forall k b, boundary G !! k = Some b ->
       exists p e n,
         nodes0 !! b = Some p /\ ids !! b = Some e /\
         py_index edge_normals e = Ok n /\
         ghost G !! k = Some (N + k) /\
         nodes G !! (N + k)
         = Some (pt_add p (pt_scale (rmul (rlit (1#2)) (dx G)) n))) /\
    length dist = N /\
    (exists i row, dist !! i = Some row /\ row !! 1 = Some (dx G)) /\
    (forall i row d, dist !! i = Some row -> row !! 1 = Some d ->
       rleb (dx G) d = true).
Proof.
  intros HC Hs. pose proof (setup_wf N G HC Hs) as HG.
  destruct (setup_inv N G Hs) as
    (nodes0 & ids & edge_normals & edges & idx & dist & nearest & on_boundary &
     shifted & targets & btargets & Hmen & Hnor & Hedges & Hnrm & Hnei & Hcol &
     Hmin & Honb & Hshift & _ & _ & _ & _ & _ & _ & _ & Hnodes & Hghost & _).
  destruct (menodes_shape _ _ Hmen) as (Hn0 & _ & _).
  exists nodes0, ids, edge_normals, idx, dist.
  split_and!; try done.
  - rewrite Hnodes. unfold np_vstack. by rewrite <- Hn0, take_app_length.
  - apply (wf_nodes _ _ HG).
  - intros k b Hk.
    apply np_take_Forall2 in Hedges, Honb. apply np_take_Z_Forall2 in Hnrm.
    destruct (Forall2_lookup_l _ _ _ _ _ Hedges Hk) as (e & He & Hbe).
    destruct (Forall2_lookup_l _ _ _ _ _ Honb Hk) as (p & Hp & Hbp).
    destruct (Forall2_lookup_l _ _ _ _ _ Hnrm He) as (n & Hn & Hen).
    exists p, e, n. split_and!; try done.
    + rewrite Hghost. apply lookup_seq. split; [done|]. by eapply lookup_lt_Some.
    + rewrite Hnodes. unfold np_vstack.
      rewrite lookup_app_r by lia. replace (N + k - length nodes0) with k by lia.
      unfold np_add2 in Hshift. rewrite decide_True in Hshift.
      2:{ unfold np_scale2. rewrite length_map.
          rewrite <- (Forall2_length _ _ _ Honb), <- (Forall2_length _ _ _ Hnrm).
          apply (Forall2_length _ _ _ Hedges). }
      injection Hshift as <-. unfold np_scale2.
      rewrite lookup_zip_with, list_lookup_fmap, Hp, Hn. done.
  - rewrite (neighbors_shape _ _ _ _ Hnei). done.
  - apply np_min_spec in Hmin as [Hin _]. apply column1_Forall2 in Hcol.
    apply list_elem_of_lookup_1 in Hin as [i Hi].
    destruct (Forall2_lookup_r _ _ _ _ _ Hcol Hi) as (row & Hrow & Hd).
    by exists i, row.
  - intros i row d Hrow Hd. apply np_min_spec in Hmin as [_ Hle].
    apply column1_Forall2 in Hcol. apply Hle.
    destruct (Forall2_lookup_l _ _ _ _ _ Hcol Hrow) as (d' & Hd' & Hrd).
    apply list_elem_of_lookup_2 with i. congruence.
Qed.

End GhostNodes.

(** * The store *)

Section StoreFacts.
Context {Sc : Scalar} {E : Externals}.

Local Abbreviation store := (gmap nat obj) (only parsing).

Lemma fresh_ne (h : store) (l : nat) : is_Some (h !! l) -> fresh (dom h) ≠ l.
Proof.
  intros Hl Heq. apply (is_fresh (dom h)). rewrite Heq. by apply elem_of_dom.
Qed.

Lemma keeps_bind {A B} (h0 : store) (m : M A) (k : A -> M B) (P : A -> Prop)
      (Q : B -> Prop) :
  keeps h0 m P -> (forall a, P a -> keeps h0 (k a) Q) -> keeps h0 (bindM m k) Q.
Proof.
  intros Hm Hk h Hh. unfold bindM. destruct (Hm h Hh) as [Hsub HP].
  destruct (m h) as [[a|e] h']; simpl in *; [|done].
  apply (Hk a); auto.
Qed.

Lemma keeps_ret {A} (h0 : store) (a : A) : keeps h0 (ret a) (fun _ => True).
Proof. by intros h Hh. Qed.

Lemma keeps_lift {A} (h0 : store) (r : result A) : keeps h0 (lift r) (fun _ => True).
Proof. by intros h Hh. Qed.

Lemma keeps_load (h0 : store) (l : nat) : keeps h0 (load l) (fun _ => True).
Proof. intros h Hh. unfold load. by destruct (h !! l). Qed.

Lemma keeps_load_array (h0 : store) (l : nat) : keeps h0 (load_array l) (fun _ => True).
Proof.
  eapply keeps_bind; [apply keeps_load|]. intros [] _; by intros h Hh.
Qed.

Lemma keeps_load_points (h0 : store) (l : nat) : keeps h0 (load_points l) (fun _ => True).
Proof.
  eapply keeps_bind; [apply keeps_load|]. intros [] _; by intros h Hh.
Qed.

Lemma keeps_load_ints (h0 : store) (l : nat) : keeps h0 (load_ints l) (fun _ => True).
Proof.
  eapply keeps_bind; [apply keeps_load|]. intros [] _; by intros h Hh.
Qed.

Lemma keeps_load_matrix (h0 : store) (l : nat) : keeps h0 (load_matrix l) (fun _ => True).
Proof.
  eapply keeps_bind; [apply keeps_load|]. intros [] _; by intros h Hh.
Qed.

Lemma keeps_load_view (h0 : store) (w : view) : keeps h0 (load_view w) (fun _ => True).
Proof.
  eapply keeps_bind; [apply keeps_load_array|]. intros a _. apply keeps_ret.
Qed.

Lemma keeps_reshape2_view (h0 : store) (v : nat) :
  keeps h0 (reshape2_view v) (fun _ => True).
Proof.
  eapply keeps_bind; [apply keeps_load_array|]. intros a _.
  destruct (Nat.even (length a)); by intros h Hh.
Qed.

(** A new object is put where the store had none. *)
Lemma keeps_alloc (h0 : store) (o : obj) :
  keeps h0 (alloc o) (fun l => h0 !! l = None).
Proof.
  intros h Hh. unfold alloc. simpl.
  assert (Hfresh : h !! fresh (dom h) = None).
  { apply not_elem_of_dom. apply is_fresh. }
  split.
  - etrans; [exact Hh|]. by apply insert_subseteq.
  - intros a [= <-]. eapply lookup_weaken_None; done.
Qed.

(** A write outside [h0]. *)
Lemma keeps_write (h0 : store) (l : nat) (o : obj) :
  h0 !! l = None -> keeps h0 (write l o) (fun _ => True).
Proof.
  intros Hl h Hh. unfold write. simpl. split; [|done].
  apply map_subseteq_spec. intros i x Hi.
  rewrite lookup_insert_ne by congruence. by eapply lookup_weaken.
Qed.

Lemma keeps_setitem (h0 : store) (target : nat) (idx : list nat) (vals : list R) :
  h0 !! target = None -> keeps h0 (setitem target idx vals) (fun _ => True).
Proof.
  intros Hl. eapply keeps_bind; [apply keeps_load_array|]. intros a _.
  eapply keeps_bind; [apply keeps_lift|]. intros a' _. by apply keeps_write.
Qed.

Ltac keeps_step :=
  first
    [ apply keeps_ret
    | eapply keeps_bind;
      [ first [ apply keeps_reshape2_view | apply keeps_load_points
              | apply keeps_load_ints | apply keeps_load_matrix
              | apply keeps_load_array | apply keeps_load_view
              | apply keeps_lift | apply keeps_alloc
              | apply keeps_setitem; assumption ]
      | intros ? ? ] ].

Lemma f_store_keeps (rho : names) (junk : nat -> R) (t : R) (v : nat) (h0 : store) :
  keeps h0 (f_store rho junk t v) (fun _ => True).
Proof. unfold f_store. repeat keeps_step. Qed.

(** Running the primitives. *)
Lemma run_load_array {B} (h : store) (l : nat) (a : list R) (k : list R -> M B) :
  h !! l = Some (OArray a) -> bindM (load_array l) k h = k a h.
Proof. intros Hl. unfold load_array, load, bindM, ret. by rewrite Hl. Qed.

Lemma run_load_points {B} (h : store) (l : nat) (a : list point) (k : list point -> M B) :
  h !! l = Some (OPoints a) -> bindM (load_points l) k h = k a h.
Proof. intros Hl. unfold load_points, load, bindM, ret. by rewrite Hl. Qed.

Lemma run_load_ints {B} (h : store) (l : nat) (a : list nat) (k : list nat -> M B) :
  h !! l = Some (OInts a) -> bindM (load_ints l) k h = k a h.
Proof. intros Hl. unfold load_ints, load, bindM, ret. by rewrite Hl. Qed.

Lemma run_load_matrix {B} (h : store) (l : nat) (a : matrix) (k : matrix -> M B) :
  h !! l = Some (OMatrix a) -> bindM (load_matrix l) k h = k a h.
Proof. intros Hl. unfold load_matrix, load, bindM, ret. by rewrite Hl. Qed.

Lemma run_load_view {B} (h : store) (w : view) (a : list R) (k : list R -> M B) :
  h !! base w = Some (OArray a) ->
  bindM (load_view w) k h = k (take (count w) (drop (start w) a)) h.
Proof.
  intros Hl. unfold load_view, load_array, load, bindM, ret. by rewrite Hl.
Qed.

Lemma run_lift {A B} (h : store) (r : result A) (k : A -> M B) :
  bindM (lift r) k h = match r with Ok a => k a h | Raise e => (Raise e, h) end.
Proof. unfold bindM, lift. by destruct r. Qed.

Lemma run_setitem {B} (h : store) (l : nat) (a : list R) (idx : list nat)
      (vals : list R) (k : unit -> M B) :
  h !! l = Some (OArray a) ->
  bindM (setitem l idx vals) k h
  = match np_put a idx vals with
    | Ok a' => k tt (<[l := OArray a']> h)
    | Raise e => (Raise e, h)
    end.
Proof.
  intros Hl. unfold setitem, load_array, load, write, bindM, ret, lift.
  rewrite Hl. by destruct (np_put a idx vals).
Qed.

Lemma run_reshape2_view {B} (h : store) (v : nat) (y : list R) (k : view * view -> M B) :
  h !! v = Some (OArray y) ->
  bindM (reshape2_view v) k h
  = if Nat.even (length y)
    then k (View v 0 (length y / 2), View v (length y / 2) (length y / 2)) h
    else (Raise ValueError, h).
Proof.
  intros Hl. unfold reshape2_view, load_array, load, bindM, ret, lift.
  rewrite Hl. by destruct (Nat.even (length y)).
Qed.

Lemma binds_insert (rho : names) (h : store) (G : globals) (l : nat) (o : obj) :
  binds rho h G -> h !! l = None -> binds rho (<[l:=o]> h) G.
Proof.
  intros [] Hl. constructor; (rewrite lookup_insert_ne; [done|congruence]).
Qed.

(** The store model returns what [f] returns. *)
Lemma f_store_result (rho : names) (G : globals) (junk : nat -> R) (t : R)
      (v : nat) (y : list R) (h : store) :
  binds rho h G -> h !! v = Some (OArray y) ->
  (f_store rho junk t v h).1 = f G junk t y.
Proof.
  intros Hb Hv. unfold f_store, f, reshape2.
  rewrite (run_reshape2_view h v y) by done.
  destruct (Nat.even (length y)) eqn:Heven; [|done].
  assert (Hm : length y = 2 * (length y / 2)).
  { apply Nat.even_spec in Heven as [m' Hm']. rewrite Hm' at 2.
    rewrite (Nat.mul_comm 2 m'), Nat.div_mul; lia. }
  remember (length y / 2) as m eqn:Hmdef. clear Hmdef Heven. simpl.
  rewrite (run_load_points h _ (nodes G)) by apply Hb.
  unfold bindM at 1, alloc at 1. simpl.
  set (u := fresh (dom h)).
  assert (Hu : h !! u = None) by (apply not_elem_of_dom, is_fresh).
  assert (Hvu : u ≠ v) by congruence.
  set (h1 := <[u:=OArray (np_empty junk (length (nodes G)))]> h).
  assert (Hb1 : binds rho h1 G) by (by apply binds_insert).
  assert (Hv1 : h1 !! v = Some (OArray y)) by (unfold h1; by rewrite lookup_insert_ne).
  rewrite (run_load_view h1 _ y) by done. simpl. rewrite drop_0.
  rewrite (run_load_ints h1 _ (interior G)) by apply Hb1.
  rewrite (run_load_ints h1 _ (boundary G)) by apply Hb1.
  rewrite (run_setitem h1 u (np_empty junk (length (nodes G))))
    by (unfold h1; by rewrite lookup_insert_eq).
  unfold displacement.
  destruct (np_put (np_empty junk _) _ _) as [u1|e]; simpl; [|done].
  unfold h1. rewrite insert_insert_eq. clear h1 Hb1 Hv1.
  set (h2 := <[u:=OArray u1]> h).
  assert (Hb2 : binds rho h2 G) by (by apply binds_insert).
  assert (Hv2 : h2 !! v = Some (OArray y)) by (unfold h2; by rewrite lookup_insert_ne).
  rewrite (run_load_matrix h2 _ (dD G)) by apply Hb2.
  rewrite (run_load_ints h2 _ (ghost G)) by apply Hb2.
  unfold ghost_values.
  rewrite run_lift. destruct (sp_cols (dD G) (ghost G)) as [A|e]; simpl; [|done].
  rewrite (run_load_ints h2 _ (interior G)) by apply Hb2.
  rewrite (run_load_ints h2 _ (boundary G)) by apply Hb2.
  rewrite run_lift. destruct (sp_cols (dD G) (interior G ++ boundary G)) as [K|e];
    simpl; [|done].
  rewrite (run_load_view h2 _ y) by done. simpl. rewrite drop_0.
  rewrite run_lift. destruct (sp_dot K _) as [k|e]; simpl; [|done].
  rewrite (run_load_array h2 _ (u_bnd G)) by apply Hb2.
  rewrite run_lift. destruct (np_sub (u_bnd G) k) as [b|e]; simpl; [|done].
  rewrite run_lift. destruct (spsolve A b) as [g|e]; simpl; [|done].
  rewrite (run_load_ints h2 _ (ghost G)) by apply Hb2.
  rewrite (run_setitem h2 u u1) by (unfold h2; by rewrite lookup_insert_eq).
  destruct (np_put u1 (ghost G) g) as [u2|e]; simpl; [|done].
  unfold h2. rewrite insert_insert_eq. clear h2 Hb2 Hv2.
  set (h3 := <[u:=OArray u2]> h).
  assert (Hb3 : binds rho h3 G) by (by apply binds_insert).
  assert (Hv3 : h3 !! v = Some (OArray y)) by (unfold h3; by rewrite lookup_insert_ne).
  rewrite (run_load_view h3 _ y) by done. simpl.
  rewrite (run_load_matrix h3 _ (D G)) by apply Hb3.
  rewrite (run_load_array h3 u u2) by (unfold h3; by rewrite lookup_insert_eq).
  rewrite run_lift. destruct (sp_dot (D G) u2) as [a|e]; simpl; [|done].
  unfold ret. simpl. do 2 f_equal.
  apply take_ge. rewrite length_drop. lia.
Qed.

(** The integration loop writes the integrator object and the list
    [soln], and nothing else that existed. *)
Lemma keeps_integrate_store (h0 : store) (rho : names) (junk : nat -> R)
      (integrator : nat) (t : R) :
  h0 !! integrator = None ->
  keeps h0 (integrate_store rho junk integrator t) (fun _ => True).
Proof.
  intros Hi. unfold integrate_store.
  eapply keeps_bind; [apply keeps_load|]. intros o _.
  destruct o; try apply keeps_lift.
  eapply keeps_bind; [apply keeps_load_array|]. intros y _.
  eapply keeps_bind with (P := fun _ => True); [by intros h Hh|]. intros h _.
  eapply keeps_bind; [apply keeps_lift|]. intros y' _.
  eapply keeps_bind; [apply keeps_alloc|]. intros l _.
  eapply keeps_bind; [by apply keeps_write|]. intros _ _. apply keeps_ret.
Qed.

Lemma loop_store_frame (h0 : store) (rho : names) (junk : nat -> R)
      (names2 : loop_names) (ts : list R) :
  h0 !! integrator_at names2 = None -> h0 !! soln_at names2 = None ->
  keeps h0 (loop_store rho junk names2 ts) (fun _ => True).
Proof.
  intros Hi Hs. induction ts as [|t ts IH]; simpl; [apply keeps_ret|].
  eapply keeps_bind with (P := fun _ => True); [|by intros _ _].
  unfold loop_body_store.
  eapply keeps_bind; [by apply keeps_integrate_store|]. intros y_at _.
  eapply keeps_bind; [apply keeps_reshape2_view|]. intros rows2 _.
  eapply keeps_bind; [apply keeps_load|]. intros o _.
  destruct o; try apply keeps_lift. by apply keeps_write.
Qed.

Lemma loop_store_others (rho : names) (junk : nat -> R) (names2 : loop_names)
      (ts : list R) (h : store) (l : nat) (o : obj) :
  l ≠ integrator_at names2 -> l ≠ soln_at names2 -> h !! l = Some o ->
  (loop_store rho junk names2 ts h).2 !! l = Some o.
Proof.
  intros Hli Hls Hl.
  set (h0 := delete (integrator_at names2) (delete (soln_at names2) h)).
  destruct (loop_store_frame h0 rho junk names2 ts) with (h := h) as [Hsub _].
  - unfold h0. by rewrite lookup_delete_eq.
  - unfold h0. rewrite lookup_delete. case_decide; [done|]. by rewrite lookup_delete_eq.
  - unfold h0. etrans; apply delete_subseteq.
  - eapply lookup_weaken; [|exact Hsub].
    unfold h0. by rewrite !lookup_delete_ne.
Qed.

(** C8.  A call of [f], whether it returns or raises, leaves every
    object of the store as it was: the names [nodes], [interior],
    [boundary], [ghost], [D], [dD] and [u_bnd] are bound to the same
    values after the call, the buffer of the state vector passed in holds
    the same entries, and so does any other object that existed before
    the call (what [f] writes is the array [u] it allocates).  The
    integration loop leaves every object as it was except the integrator
    and the list [soln]: the state evolves through the integrator. *)
Theorem f_store_frame (rho : names) (G : globals) (junk : nat -> R) (t : R)
        (v : nat) (y : list R) (h : store) :
  binds rho h G -> h !! v = Some (OArray y) ->
  binds rho (f_store rho junk t v h).2 G /\
  (f_store rho junk t v h).2 !! v = Some (OArray y) /\
  (forall l o, h !! l = Some o -> (f_store rho junk t v h).2 !! l = Some o) /\
  (f_store rho junk t v h).1 = f G junk t y /\
  (forall names2 ts l o,
     l ≠ integrator_at names2 -> l ≠ soln_at names2 -> h !! l = Some o ->
     (loop_store rho junk names2 ts h).2 !! l = Some o).
Proof.
  intros Hb Hv.
  destruct (f_store_keeps rho junk t v h h) as [Hsub _]; [done|].
  assert (Hold : forall l o, h !! l = Some o ->
                   (f_store rho junk t v h).2 !! l = Some o).
  { intros l o Hl. by eapply lookup_weaken. }
  split_and!; [|by apply Hold|done|by apply f_store_result|].
  - destruct Hb. constructor; by apply Hold.
  - intros names2 ts l o. apply loop_store_others.
Qed.

End StoreFacts.

(** * Further properties of the script *)

Section Classification.
Context {Sc : Scalar} {E : Externals}.

Lemma nonzero_from_sorted (k : nat) (mask : list bool) :
  StronglySorted lt (nonzero_from k mask).
Proof.
  revert k. induction mask as [|b mask IH]; intros k; simpl; [constructor|].
  destruct b; simpl; [|apply IH]. constructor; [apply IH|].
  apply Forall_forall. intros i [Hi _]%elem_of_nonzero_from. lia.
Qed.

Lemma elem_of_np_nonzero {A} (p : A -> bool) (l : list A) (i : nat) :
  i ∈ np_nonzero (map p l) <-> exists x, l !! i = Some x /\ p x = true.
Proof.
  unfold np_nonzero. rewrite elem_of_nonzero_from, Nat.sub_0_r, list_lookup_fmap.
  destruct (l !! i) as [x|]; simpl; split.
  - intros [_ [= Hx]]. by exists x.
  - intros (x' & [= <-] & Hx). split; [lia|]. by rewrite Hx.
  - by intros [_ ?].
  - by intros (x & ? & _).
Qed.

(** X1.  Lines 22-23: a node is interior exactly when its tag is [-1]
    and on the boundary exactly when its tag is not negative; no node is
    both, and the two lists are strictly increasing. *)
Theorem node_classification (N : nat) (G : globals) :
  setup N = Ok G ->
  (forall i, i ∈ interior G <-> smpid G !! i = Some (-1)%Z) /\
  (forall i, i ∈ boundary G <-> exists s, smpid G !! i = Some s /\ (0 <= s)%Z) /\
  (forall i, i ∈ interior G -> i ∉ boundary G) /\
  StronglySorted lt (interior G) /\ StronglySorted lt (boundary G).
Proof.
  intros Hs.
  destruct (setup_inv N G Hs) as
    (nodes0 & ids & edge_normals & edges & idx & dist & nearest & on_boundary &
     shifted & targets & btargets & _ & _ & _ & _ & _ & _ & _ & _ & _ & _ & _ &
     _ & _ & Hsmpid & Hint & Hbnd & _).
  rewrite Hsmpid, Hint, Hbnd.
  assert (H1 : forall i, i ∈ np_nonzero (map (fun s => (s =? -1)%Z) ids)
                 <-> ids !! i = Some (-1)%Z).
  { intros i. rewrite elem_of_np_nonzero. split.
    - intros (x & Hx & ->%Z.eqb_eq). done.
    - intros Hi. by exists (-1)%Z. }
  assert (H2 : forall i, i ∈ np_nonzero (map (fun s => (0 <=? s)%Z) ids)
                 <-> exists s, ids !! i = Some s /\ (0 <= s)%Z).
  { intros i. rewrite elem_of_np_nonzero. split.
    - intros (x & Hx & Hp%Z.leb_le). by exists x.
    - intros (x & Hx & Hp). exists x. split; [done|]. by apply Z.leb_le. }
  split_and!; try done; try apply nonzero_from_sorted.
  intros i Hi%H1 (s & Hs' & Hge)%H2. simplify_eq. lia.
Qed.

(** X2.  Lines 21-23: when every tag [menodes] returns is [-1] or the
    index of an edge, the interior and boundary nodes together are the
    [N] nodes, each once. *)
Theorem nodes_partition (N : nat) (G : globals) :
  Contracts N -> setup N = Ok G ->
  interior G ++ boundary G ≡ₚ seq 0 N /\
  length (interior G) + length (boundary G) = N /\
  (forall i, i < N -> i ∈ interior G \/ i ∈ boundary G) /\
  (forall i, i ∈ interior G ++ boundary G -> i < N).
Proof.
  intros HC Hs. pose proof (setup_wf N G HC Hs) as HG.
  split_and!.
  - apply (wf_partition _ _ HG).
  - by apply half_count.
  - intros i Hi. apply elem_of_app. rewrite (wf_partition _ _ HG), elem_of_seq. lia.
  - intros i. by apply known_lt.
Qed.

(** X3.  Lines 25 and 32-33: there is one normal per boundary node; [D]
    has one row per interior or boundary node and one column per node,
    ghost nodes included, and [dD] one row per boundary node; so
    [D.dot(u)] returns [N] entries for an array over all the nodes and
    raises [ValueError] for an array of another length. *)
Theorem operator_shapes (N : nat) (G : globals) :
  Contracts N -> setup N = Ok G ->
  length (normals G) = length (boundary G) /\
  wf_matrix (D G) /\ nrows (D G) = N /\ ncols (D G) = N + length (boundary G) /\
  wf_matrix (dD G) /\ nrows (dD G) = length (boundary G) /\
  ncols (dD G) = N + length (boundary G) /\
  (forall u, length u = N + length (boundary G) ->
     exists a, sp_dot (D G) u = Ok a /\ length a = N) /\
  (forall u, length u <> N + length (boundary G) ->
     sp_dot (D G) u = Raise ValueError).
Proof.
  intros HC Hs. pose proof (setup_wf N G HC Hs) as HG.
  destruct (setup_inv N G Hs) as
    (nodes0 & ids & edge_normals & edges & idx & dist & nearest & on_boundary &
     shifted & targets & btargets & _ & _ & Hedges & Hnrm & _).
  pose proof (wf_D_cols _ _ HG) as HDc. rewrite (wf_nodes _ _ HG) in HDc.
  pose proof (wf_dD_cols _ _ HG) as HdDc. rewrite (wf_nodes _ _ HG) in HdDc.
  pose proof (wf_D_rows _ _ HG) as HDr. rewrite (known_length N G HG) in HDr.
  split_and!; try done; try apply HG.
  - rewrite (np_take_Z_length _ _ _ Hnrm). apply (np_take_length _ _ _ Hedges).
  - intros u Hu. eexists. split; [apply sp_dot_Ok; lia|].
    rewrite length_map. destruct (wf_D _ _ HG) as [-> _]. done.
  - intros u Hu. unfold sp_dot. rewrite decide_False; [done|lia].
Qed.

(** X5.  Line 27: with no node there is no nearest-neighbour distance to
    take the minimum of, and the set-up raises. *)
Theorem setup_needs_nodes :
  Contracts 0 -> exists e, setup 0 = Raise e.
Proof.
  intros HC. destruct (setup 0) as [G|e] eqn:Hs; [exfalso|by exists e].
  destruct (setup_inv 0 G Hs) as
    (nodes0 & ids & edge_normals & edges & idx & dist & nearest & on_boundary &
     shifted & targets & btargets & Hmen & _ & _ & _ & Hnei & Hcol & Hmin & _).
  destruct (menodes_shape _ _ Hmen) as (Hn0 & _ & _).
  pose proof (neighbors_shape _ _ _ _ Hnei) as Hd. rewrite Hn0 in Hd.
  pose proof (column1_length _ _ Hcol) as Hc. rewrite Hd in Hc.
  destruct nearest; [done|]. done.
Qed.

Lemma py_index_Ok_range {A} (a : list A) (i : Z) (x : A) :
  py_index a i = Ok x -> (i < Z.of_nat (length a))%Z.
Proof.
  unfold py_index. destruct (i <? 0)%Z eqn:Hneg.
  - apply Z.ltb_lt in Hneg. lia.
  - destruct ((0 <=? i)%Z && (i <? Z.of_nat (length a))%Z) eqn:Hr; [|done].
    apply andb_true_iff in Hr as [_ Hr%Z.ltb_lt]. done.
Qed.

Lemma np_take_Z_raises {A} (a : list A) (idx : list Z) (e : exn) :
  np_take_Z a idx = Raise e -> e = IndexError.
Proof.
  induction idx as [|i idx IH]; simpl; [done|].
  destruct (py_index a i) as [x|e'] eqn:Hi; simpl.
  - destruct (np_take_Z a idx) as [xs|e'']; simpl; [done|].
    intros [= <-]. by apply IH.
  - intros [= <-]. unfold py_index in Hi.
    repeat case_match; by simplify_eq.
Qed.

(** X13.  Line 25: a tag that is not the index of an edge (it is at least
    the number of normals) makes the set-up raise [IndexError] when the
    normals of the boundary nodes are looked up. *)
Theorem setup_bad_tag (N : nat) (nodes0 : list point) (ids : list Z)
        (ns : list point) (i : nat) (s : Z) :
  menodes N vert smp = Ok (nodes0, ids) ->
  simplex_outward_normals vert smp = Ok ns ->
  ids !! i = Some s -> (Z.of_nat (length ns) <= s)%Z ->
  setup N = Raise IndexError.
Proof.
  intros Hmen Hnor Hi Hs. unfold setup. rewrite Hmen. simpl. rewrite Hnor. simpl.
  set (boundary := np_nonzero (map (fun s => (0 <=? s)%Z) ids)).
  destruct (np_take_total ids boundary) as [edges Hedges].
  { apply Forall_forall. intros b (x & Hb & _)%elem_of_np_nonzero.
    by eapply lookup_lt_Some. }
  rewrite Hedges. simpl.
  destruct (np_take_Z ns edges) as [nrm|e] eqn:Hnrm; simpl.
  - exfalso. assert (Hib : i ∈ boundary).
    { apply elem_of_np_nonzero. exists s. split; [done|]. apply Z.leb_le. lia. }
    apply list_elem_of_lookup_1 in Hib as [k Hk].
    apply np_take_Forall2 in Hedges. apply np_take_Z_Forall2 in Hnrm.
    destruct (Forall2_lookup_l _ _ _ _ _ Hedges Hk) as (s' & Hs' & Hbs).
    destruct (Forall2_lookup_l _ _ _ _ _ Hnrm Hs') as (n & _ & Hn).
    apply py_index_Ok_range in Hn. simplify_eq. lia.
  - by rewrite (np_take_Z_raises _ _ _ Hnrm).
Qed.

End Classification.

Section EvaluatorEdges.
Context {Sc : Scalar} {E : Externals}.

(** X6.  A state vector whose length is not [2*(interior count +
    boundary count)] is rejected with [ValueError]: by [reshape] when the
    length is odd, by the indexed assignment when the displacement half
    has the wrong length, and, when that half has one entry (which the
    assignment broadcasts), by the product with [dD[:,interior+boundary]]. *)
Theorem f_wrong_length (N : nat) (G : globals) (junk : nat -> R) (t : R) (y : list R) :
  Contracts N -> setup N = Ok G ->
  length y <> 2 * (length (interior G) + length (boundary G)) ->
  f G junk t y = Raise ValueError.
Proof.
  intros HC Hs Hy. pose proof (setup_wf N G HC Hs) as HG.
  rewrite (half_count N G HG) in Hy. unfold f, reshape2.
  destruct (Nat.even (length y)) eqn:Heven; [|done].
  assert (Hm : length y = 2 * (length y / 2)).
  { apply Nat.even_spec in Heven as [m' Hm']. rewrite Hm' at 2.
    rewrite (Nat.mul_comm 2 m'), Nat.div_mul; lia. }
  remember (length y / 2) as m eqn:Hmdef. clear Hmdef Heven. simpl.
  assert (Hd : length (take m y) = m) by (rewrite length_take; lia).
  remember (take m y) as d eqn:Hdd. clear Hdd.
  assert (Hput : np_put (np_empty junk (length (nodes G))) (interior G ++ boundary G) d
                 = match d with
                   | [x] => put_all (np_empty junk (length (nodes G)))
                              (zip (interior G ++ boundary G)
                                 (replicate (length (interior G ++ boundary G)) x))
                   | _ => Raise ValueError
                   end).
  { unfold np_put. rewrite decide_False by (rewrite (known_length N G HG); lia). done. }
  unfold displacement. rewrite Hput. clear Hput.
  destruct d as [|x [|x' d]]; [done| |done].
  destruct (put_all_spec (zip (interior G ++ boundary G)
                            (replicate (length (interior G ++ boundary G)) x))
              (np_empty junk (length (nodes G)))) as (u1 & -> & _).
  { apply Forall_forall. intros [i z] Hi%elem_of_zip_l%(known_lt N G HG). simpl.
    rewrite np_empty_length, (wf_nodes _ _ HG). lia. }
  simpl.
  destruct (ghost_matrix_shape N G HG) as (A & HA & _).
  destruct (known_matrix_shape N G HG) as (K & HK & _ & _ & HKc).
  unfold ghost_values. unfold ghost_matrix in HA. rewrite HA. simpl. rewrite HK. simpl.
  unfold sp_dot. rewrite decide_False; [done|]. simpl in *. lia.
Qed.

(** X7.  An exception that [spsolve] raises on the ghost system of a
    state is the exception of the call: [f] has no handler. *)
Theorem solver_failure_propagates (N : nat) (G : globals) (junk : nat -> R) (t : R)
        (y : list R) (e : exn) :
  Contracts N -> setup N = Ok G ->
  length y = 2 * (length (interior G) + length (boundary G)) ->
  (forall A K k b,
     ghost_matrix G = Ok A ->
     sp_cols (dD G) (interior G ++ boundary G) = Ok K ->
     sp_dot K (take (length (interior G) + length (boundary G)) y) = Ok k ->
     np_sub (u_bnd G) k = Ok b ->
     spsolve A b = Raise e) ->
  f G junk t y = Raise e.
Proof.
  intros HC Hs Hy Hraise. pose proof (setup_wf N G HC Hs) as HG.
  rewrite (half_count N G HG) in *.
  assert (Hv0 : length (take N y) = N) by (rewrite length_take; lia).
  destruct (ghost_values_unfold N G HG (take N y) Hv0) as (A & K & HA & HK & Hgv).
  destruct (known_matrix_shape N G HG) as (K' & HK' & HKwf & HKr & HKc).
  rewrite HK in HK'. injection HK' as <-.
  rewrite (Hraise A K (map (fun r => dot r (take N y)) (rows K)) _ HA HK) in Hgv.
  - destruct (np_put_spec (np_empty junk (length (nodes G)))
                (interior G ++ boundary G) (take N y)) as (u1 & Hu1 & _).
    { by rewrite (known_length N G HG). }
    { apply Forall_forall. intros i Hi%(known_lt N G HG).
      rewrite np_empty_length, (wf_nodes _ _ HG). lia. }
    { apply (known_NoDup N G HG). }
    unfold f. rewrite (reshape2_halves _ N Hy). simpl.
    unfold displacement. rewrite Hu1. simpl. rewrite Hgv. done.
  - apply sp_dot_Ok. lia.
  - unfold np_sub, np_zip_with. rewrite decide_True; [done|].
    rewrite (wf_u_bnd _ _ HG), np_zeros_length, length_map.
    destruct HKwf as [-> _]. done.
Qed.

(** X8.  What [spsolve] answers on the ghost system of a state is written
    to the ghost entries as it is: any array with one entry per ghost
    node is accepted, and nothing checks that it solves the system. *)
Theorem solver_answer_unchecked (N : nat) (G : globals) (junk : nat -> R) (t : R)
        (y x : list R) :
  Contracts N -> setup N = Ok G ->
  length y = 2 * (length (interior G) + length (boundary G)) ->
  length x = length (boundary G) ->
  (forall A K k b,
     ghost_matrix G = Ok A ->
     sp_cols (dD G) (interior G ++ boundary G) = Ok K ->
     sp_dot K (take (length (interior G) + length (boundary G)) y) = Ok k ->
     np_sub (u_bnd G) k = Ok b ->
     spsolve A b = Ok x) ->
  exists u a,
    displacement G junk (take (length (interior G) + length (boundary G)) y) = Ok u /\
    np_take u (ghost G) = Ok x /\
    sp_dot (D G) u = Ok a /\
    f G junk t y
    = Ok (np_hstack (drop (length (interior G) + length (boundary G)) y) a).
Proof.
  intros HC Hs Hy Hx Hany. pose proof (setup_wf N G HC Hs) as HG.
  rewrite (half_count N G HG) in *.
  assert (Hv0 : length (take N y) = N) by (rewrite length_take; lia).
  destruct (ghost_values_unfold N G HG (take N y) Hv0) as (A & K & HA & HK & Hgv).
  destruct (known_matrix_shape N G HG) as (K' & HK' & HKwf & HKr & HKc).
  rewrite HK in HK'. injection HK' as <-.
  rewrite (Hany A K (map (fun r => dot r (take N y)) (rows K)) _ HA HK) in Hgv.
  - destruct (np_put_spec (np_empty junk (length (nodes G)))
                (interior G ++ boundary G) (take N y)) as (u1 & Hu1 & Hl1 & _).
    { by rewrite (known_length N G HG). }
    { apply Forall_forall. intros i Hi%(known_lt N G HG).
      rewrite np_empty_length, (wf_nodes _ _ HG). lia. }
    { apply (known_NoDup N G HG). }
    destruct (np_put_spec u1 (ghost G) x) as (u2 & Hu2 & Hl2 & _ & Hin2).
    { by rewrite (ghost_length N G HG). }
    { apply Forall_forall. intros i Hi%(ghost_ge N G HG).
      rewrite Hl1, np_empty_length. lia. }
    { apply (ghost_NoDup N G HG). }
    assert (Hu : displacement G junk (take N y) = Ok u2).
    { unfold displacement. rewrite Hu1. simpl. rewrite Hgv. simpl. done. }
    assert (Ha : sp_dot (D G) u2 = Ok (map (fun r => dot r u2) (rows (D G)))).
    { apply sp_dot_Ok. by rewrite Hl2, Hl1, np_empty_length, (wf_D_cols _ _ HG). }
    exists u2, (map (fun r => dot r u2) (rows (D G))). split_and!; try done.
    unfold f. rewrite (reshape2_halves _ N Hy). simpl. rewrite Hu. simpl.
    rewrite Ha. done.
  - apply sp_dot_Ok. lia.
  - unfold np_sub, np_zip_with. rewrite decide_True; [done|].
    rewrite (wf_u_bnd _ _ HG), np_zeros_length, length_map.
    destruct HKwf as [-> _]. done.
Qed.

(** X12.  The derivative of the displacements is the velocity half of
    the state, and the accelerations do not depend on the velocities:
    two states with the same displacements get the same accelerations
    (and a call that raises on the one raises the same on the other).
    The call returns when the solver answers. *)
Theorem acceleration_ignores_velocity (N : nat) (G : globals) (junk : nat -> R)
        (t : R) (d w w' : list R) :
  Contracts N -> setup N = Ok G ->
  length d = length (interior G) + length (boundary G) ->
  length w = length d -> length w' = length d ->
  (forall r, f G junk t (d ++ w) = Ok r ->
     take (length d) r = w /\ length (drop (length d) r) = length d /\
     f G junk t (d ++ w') = Ok (np_hstack w' (drop (length d) r))) /\
  (forall e, f G junk t (d ++ w) = Raise e -> f G junk t (d ++ w') = Raise e) /\
  (ghost_answered G -> exists r, f G junk t (d ++ w) = Ok r).
Proof.
  intros HC Hs Hd Hw Hw'. pose proof (setup_wf N G HC Hs) as HG.
  rewrite (half_count N G HG) in Hd.
  assert (Hy : length (d ++ w) = 2 * N) by (rewrite length_app; lia).
  assert (Hy' : length (d ++ w') = 2 * N) by (rewrite length_app; lia).
  destruct (f_unfold N G HG junk t (d ++ w) Hy)
    as (A & K & k & b & u1 & HA & HK & Hk & Hb & _ & Hu1 & _ & Hf).
  destruct (f_unfold N G HG junk t (d ++ w') Hy')
    as (A' & K' & k' & b' & u1' & HA' & HK' & Hk' & Hb' & _ & Hu1' & _ & Hf').
  rewrite <- Hd in Hk, Hk', Hu1, Hu1', Hf, Hf'.
  rewrite take_app_length in Hk, Hk', Hu1, Hu1'.
  rewrite drop_app_length in Hf, Hf'.
  rewrite HA in HA'. injection HA' as <-. rewrite HK in HK'. injection HK' as <-.
  rewrite Hk in Hk'. injection Hk' as <-. rewrite Hb in Hb'. injection Hb' as <-.
  rewrite Hu1 in Hu1'. injection Hu1' as <-.
  rewrite Hf, Hf'. clear Hf'.
  split_and!.
  - intros r Hr.
    destruct (spsolve A b) as [g|e]; simpl in *; [|done].
    destruct (np_put u1 (ghost G) g) as [u|e]; simpl in *; [|done].
    destruct (sp_dot (D G) u) as [a|e] eqn:Ha; simpl in *; [|done].
    injection Hr as <-. unfold np_hstack.
    pose proof (sp_dot_length _ _ _ (wf_D _ _ HG) Ha) as Hal.
    rewrite (wf_D_rows _ _ HG), (known_length N G HG) in Hal.
    rewrite take_app_length' by lia. rewrite drop_app_length' by lia.
    split_and!; [done|lia|done].
  - intros e He.
    destruct (spsolve A b) as [g|e1]; simpl in *; [|done].
    destruct (np_put u1 (ghost G) g) as [u|e2]; simpl in *; [|done].
    destruct (sp_dot (D G) u) as [a|e3]; simpl in *; done.
  - intros Hans. destruct (f_length N G HG junk t (d ++ w) Hans Hy) as (r & Hr & _).
    exists r. by rewrite <- Hf.
Qed.

(** X11.  Lines 37-41: the initial state is at rest; its velocity half is
    all zeros, so the derivative of the displacements at the initial
    state is zero: whatever [f] returns there is [N] zeros followed by
    [N] accelerations, and it returns when the solver answers. *)
Theorem initial_state_at_rest (N : nat) (G : globals) (junk : nat -> R) (t : R) :
  Contracts N -> setup N = Ok G ->
  length (u_init G) = N /\
  reshape2 (v G) = Ok (u_init G, np_zeros N) /\
  (forall r, f G junk t (v G) = Ok r ->
     exists a, length a = N /\ r = np_hstack (np_zeros N) a) /\
  (ghost_answered G ->
   exists a, length a = N /\ f G junk t (v G) = Ok (np_hstack (np_zeros N) a)).
Proof.
  intros HC Hs. pose proof (setup_wf N G HC Hs) as HG.
  destruct (setup_inv N G Hs) as
    (nodes0 & ids & edge_normals & edges & idx & dist & nearest & on_boundary &
     shifted & targets & btargets & _ & _ & _ & _ & _ & _ & _ & _ & _ & Htar & _ &
     _ & _ & _ & _ & _ & _ & _ & Hui & Hdudt & _ & Hv).
  assert (Hl : length (u_init G) = N).
  { rewrite Hui, (np_take_length _ _ _ Htar). by apply known_length. }
  assert (Hvl : length (v G) = 2 * N).
  { rewrite (wf_v _ _ HG), (half_count N G HG). done. }
  assert (Htake : take N (v G) = u_init G).
  { rewrite Hv. unfold np_hstack. by apply take_app_length'. }
  assert (Hdrop : drop N (v G) = np_zeros N).
  { rewrite Hv, Hdudt. unfold np_hstack. by apply drop_app_length'. }
  assert (Hret : forall r, f G junk t (v G) = Ok r ->
            exists a, length a = N /\ r = np_hstack (np_zeros N) a).
  { intros r Hr.
    destruct (f_returns_length N G HG junk t (v G) r Hvl Hr) as [Hsplit Hrl].
    exists (drop N r). split; [rewrite length_drop; lia|]. by rewrite <- Hdrop. }
  split_and!; [done| |done|].
  - rewrite (reshape2_halves _ N Hvl), Htake, Hdrop. done.
  - intros Hans. destruct (f_length N G HG junk t (v G) Hans Hvl) as (r & Hr & _).
    destruct (Hret r Hr) as (a & Hal & ->). by exists a.
Qed.

End EvaluatorEdges.

Section BoundaryCondition.
Context {Sc : Scalar} {EA : ExactArith} {E : Externals}.

Add Ring scalar_ring_bc : scalar_ring.

Lemma add_sub_id (c k : list R) :
  length c = length k -> zip_with radd k (zip_with rsub c k) = c.
Proof.
  revert k. induction c as [|p c IH]; intros [|q k] Hl; simplify_eq/=; [done|].
  rewrite IH by done. f_equal. ring.
Qed.

(** X9.  For every state vector of the right length, the displacement
    array [f] builds satisfies the boundary condition exactly:
    [dD @ u = u_bnd], which is all zeros (a free boundary). *)
Theorem boundary_condition_enforced (N : nat) (G : globals) (junk : nat -> R)
        (y : list R) :
  Contracts N -> setup N = Ok G -> ghost_solved G ->
  length y = 2 * (length (interior G) + length (boundary G)) ->
  exists d w u,
    reshape2 y = Ok (d, w) /\
    displacement G junk d = Ok u /\
    sp_dot (dD G) u = Ok (u_bnd G) /\
    u_bnd G = np_zeros (length (boundary G)).
Proof.
  intros HC Hs Hsolve Hy. pose proof (setup_wf N G HC Hs) as HG.
  rewrite (half_count N G HG) in Hy.
  destruct (f_steps N G HG Hsolve junk r0 y Hy)
    as (u & g & a & Hr & Hu & Hul & Hk & Hg & _ & Hsys & _).
  exists (take N y), (drop N y), u. split_and!; try done; [|apply (wf_u_bnd _ _ HG)].
  destruct (ghost_matrix_shape N G HG) as (A & HA & HAwf & HAr & HAc).
  destruct (known_matrix_shape N G HG) as (K & HK & HKwf & HKr & HKc).
  destruct (proj1 (boundary_system_inv G A K (take N y) g HA HK) Hsys)
    as (k & b & Hkv & Hb & HAg).
  pose proof (sp_dot_length _ _ _ HKwf Hkv) as Hkl.
  rewrite np_sub_Ok in Hb by (rewrite (wf_u_bnd _ _ HG), np_zeros_length; lia).
  injection Hb as <-.
  rewrite (sp_dot_split (dD G) K A u (interior G ++ boundary G) (ghost G)
             (take N y) g k (zip_with rsub (u_bnd G) k)); try done.
  - f_equal. apply add_sub_id. rewrite (wf_u_bnd _ _ HG), np_zeros_length. lia.
  - apply (wf_dD _ _ HG).
  - by rewrite (wf_dD_cols _ _ HG).
  - rewrite Hul. apply (all_nodes N G HG).
Qed.

End BoundaryCondition.

Section LoopFacts.
Context {Sc : Scalar} {E : Externals}.

Lemma loop_snoc (G : globals) (junk : nat -> R) (s : loop_state) (ts : list R) (t : R) :
  loop G junk s (ts ++ [t]) = (s' ← loop G junk s ts; loop_body G junk s' t).
Proof.
  revert s. induction ts as [|t' ts IH]; intros s; simpl.
  - by destruct (loop_body G junk s t).
  - destruct (loop_body G junk s t') as [s1|e]; simpl; [apply IH|done].
Qed.

(** One pass: the integrator is asked for the state at [t], and the
    displacement half of what it returns is appended to [soln]; the time
    it reached stays with the integrator. *)
Lemma loop_body_spec (N : nat) (G : globals) (junk : nat -> R) (s : loop_state) (t : R) :
  wf_globals N G -> ghost_answered G -> integrator_contract (2 * N) ->
  length (integ_y s) = 2 * N ->
  exists t' y', length y' = 2 * N /\
    ode_integrate (f G junk) (integ_t s, integ_y s) t = Ok (t', y') /\
    loop_body G junk s t = Ok (LoopState t' y' (soln s ++ [take N y'])).
Proof.
  intros HG Hans Hode Hs.
  destruct (Hode (f G junk)) with (t0 := integ_t s) (y := integ_y s) (t1 := t)
    as (t' & y' & Hy' & Hl'); [|done|].
  { intros t1 y Hy. destruct (f_length N G HG junk t1 y Hans Hy) as (y' & Hf & Hl).
    exists y'. split; [done|lia]. }
  exists t', y'. split; [done|]. split; [done|]. unfold loop_body. rewrite Hy'. simpl.
  rewrite (reshape2_halves _ N Hl'). done.
Qed.

Lemma loop_collects (N : nat) (G : globals) (junk : nat -> R) (ts : list R)
      (s : loop_state) :
  wf_globals N G -> ghost_answered G -> integrator_contract (2 * N) ->
  length (integ_y s) = 2 * N ->
  exists s', loop G junk s ts = Ok s' /\
    length (integ_y s') = 2 * N /\
    length (soln s') = length (soln s) + length ts /\
    (Forall (fun d => length d = N) (soln s) ->
     Forall (fun d => length d = N) (soln s')) /\
    (integrator_reaches -> last (integ_t s :: ts) = Some (integ_t s')).
Proof.
  intros HG Hans Hode. revert s. induction ts as [|t ts IH]; intros s Hs.
  - exists s. simpl. split_and!; try done; lia.
  - destruct (loop_body_spec N G junk s t HG Hans Hode Hs) as (t' & y' & Hl' & Hint & Hb).
    destruct (IH (LoopState t' y' (soln s ++ [take N y'])) Hl')
      as (s' & Hloop & Hlen & Hsoln & Hall & Hlast).
    exists s'. simpl in *. rewrite Hb. simpl. split_and!; try done.
    + rewrite Hsoln, length_app. simpl. lia.
    + intros Hf. apply Hall. apply Forall_app. split; [done|].
      constructor; [|constructor]. rewrite length_take. lia.
    + intros Hreach. rewrite <- (Hreach _ _ _ _ _ Hint). by apply Hlast.
Qed.

(** X10.  Lines 59-66: when the solver answers and the integrator returns
    states of the length it is given, the integration loop returns; it
    saves one displacement field per output time after the first, in
    order: pass [k] asks the integrator, from the time and state the
    pass before left it at, for the state at [times[k+1]] and appends
    the displacement half of the state it gets, whatever time the
    integrator reached; each saved field has one value per point of
    [nodes[interior+boundary]] (the points they are interpolated from at
    line 75).  When the integrator reaches every time asked of it, its
    time after pass [k] is [times[k+1]] and it ends at the last output
    time. *)
Theorem solution_collected (N : nat) (G : globals) (junk : nat -> R) :
  Contracts N -> setup N = Ok G -> ghost_answered G ->
  integrator_contract (2 * (length (interior G) + length (boundary G))) ->
  exists s targets,
    integrate_all G junk = Ok s /\
    length (soln s) = length (drop 1 times) /\
    np_take (nodes G) (interior G ++ boundary G) = Ok targets /\
    Forall (fun d => length d = length targets) (soln s) /\
    (forall k t, times !! S k = Some t ->
       exists s1 s2,
         after_checkpoints G junk k = Ok s1 /\
         after_checkpoints G junk (S k) = Ok s2 /\
         ode_integrate (f G junk) (integ_t s1, integ_y s1) t
         = Ok (integ_t s2, integ_y s2) /\
         soln s2 = soln s1 ++ [take (length targets) (integ_y s2)] /\
         (integrator_reaches -> integ_t s2 = t)) /\
    (integrator_reaches -> last times = Some (integ_t s)).
Proof.
  intros HC Hs Hans Hode. pose proof (setup_wf N G HC Hs) as HG.
  rewrite (half_count N G HG) in Hode.
  destruct (setup_inv N G Hs) as
    (nodes0 & ids & edge_normals & edges & idx & dist & nearest & on_boundary &
     shifted & targets & btargets & _ & _ & _ & _ & _ & _ & _ & _ & _ & Htar & _).
  assert (Htl : length targets = N).
  { rewrite (np_take_length _ _ _ Htar). by apply known_length. }
  assert (Hv : length (v G) = 2 * N).
  { rewrite (wf_v _ _ HG), (half_count N G HG). done. }
  assert (Ht : exists t0 ts, times = t0 :: ts /\ py_index times 0 = Ok t0)
    by (by eexists _, _).
  destruct Ht as (t0 & ts & Htimes & Ht0).
  unfold integrate_all, after_checkpoints. rewrite Ht0, Htimes. simpl. rewrite drop_0.
  destruct (loop_collects N G junk ts (LoopState t0 (v G) []) HG Hans Hode Hv)
    as (s & Hloop & _ & Hsoln & Hall & Hlast).
  exists s, targets. rewrite Htl. split_and!; try done.
  - by apply Hall.
  - intros k t Htk.
    destruct (loop_collects N G junk (take k ts) (LoopState t0 (v G) []) HG Hans
                Hode Hv) as (s1 & Hloop1 & Hlen1 & _).
    destruct (loop_body_spec N G junk s1 t HG Hans Hode Hlen1)
      as (t' & y' & Hl' & Hint & Hb).
    exists s1, (LoopState t' y' (soln s1 ++ [take N y'])). split_and!; try done.
    + rewrite (take_S_r _ _ _ Htk), loop_snoc, Hloop1. done.
    + intros Hreach. simpl. by apply (Hreach _ _ _ _ _ Hint).
Qed.

End LoopFacts.

(** * The instance meets the contracts *)

Module DemoFacts.
Import Demo.

#[export] Instance demo_order : TotalOrder.
Proof.
  split; simpl; unfold Qc_leb; intros a b.
  - rewrite !Qle_bool_iff. destruct (Qlt_le_dec a b) as [Hlt|Hle]; [left|by right].
    by apply Qlt_le_weak.
  - intros c. rewrite !Qle_bool_iff. apply Qle_trans.
Qed.

(** The stand-ins meet the contracts. *)
Lemma demo_contracts (N : nat) : Contracts N.
Proof.
  split; simpl.
  - intros nodes0 ids [= <- <-]. rewrite !length_map, length_seq. split_and!; try done.
    apply Forall_forall. intros s (i & -> & _)%list_elem_of_fmap.
    unfold grid_tag. repeat case_match; lia.
  - intros x k idx dist. unfold demo_neighbors. case_decide; [|done].
    intros [= <- <-]. by rewrite length_map.
  - intros x p diffs coeffs n M. unfold demo_weight_matrix. case_decide; [|done].
    intros [= <-]. split_and!; try done. split; simpl.
    + by rewrite length_imap.
    + apply Forall_forall. intros r Hr.
      apply list_elem_of_lookup_1 in Hr as [i Hi].
      rewrite list_lookup_imap in Hi.
      destruct (x !! i); simplify_eq/=. by rewrite length_map.
Qed.

Lemma demo_returns (N : nat) : Returns N.
Proof.
  split; simpl.
  - eexists _, _. split; [done|].
    apply Forall_forall. intros s (i & -> & _)%list_elem_of_fmap.
    unfold grid_tag. repeat case_match; lia.
  - by eexists.
  - intros x k [_ Hk]. unfold demo_neighbors. rewrite decide_True by done.
    eexists _, _. split; [done|].
    apply Forall_forall. intros r (p & -> & _)%list_elem_of_fmap.
    unfold nearest. rewrite length_fmap, length_take.
    assert (Hfold : forall l : list (Qc * nat),
              length (foldr insert_by_dist [] l) = length l).
    { induction l as [|e l IH]; simpl; [done|]. rewrite <- IH.
      generalize (foldr insert_by_dist [] l). intros l'.
      induction l' as [|e' l' IH']; simpl; [done|].
      destruct (Qc_leb e.1 e'.1); simpl; [done|]. by rewrite IH'. }
    rewrite Hfold, length_zip, length_map, length_seq. lia.
  - intros x p diffs coeffs n Hn. unfold demo_weight_matrix.
    rewrite decide_True by done. by eexists.
Qed.

Lemma demo_setup : setup 30 = Ok demo_G.
Proof. vm_cast_no_check (eq_refl (Ok demo_G)). Qed.

(** Cramer's rule solves a system of two equations, and a matrix with a
    determinant that is not zero is non-singular. *)
Lemma sp_dot_2x2 (a11 a12 a21 a22 x1 x2 : Qc) :
  sp_dot (Matrix 2 2 [[a11; a12]; [a21; a22]]) [x1; x2]
  = Ok [ Qcplus (Qcmult a11 x1) (Qcplus (Qcmult a12 x2) (Q2Qc 0));
         Qcplus (Qcmult a21 x1) (Qcplus (Qcmult a22 x2) (Q2Qc 0)) ].
Proof. reflexivity. Qed.

Lemma cramer2_solves (a11 a12 a21 a22 : Qc) :
  Qcminus (Qcmult a11 a22) (Qcmult a12 a21) <> Q2Qc 0 ->
  solves_exactly (Matrix 2 2 [[a11; a12]; [a21; a22]]).
Proof.
  intros Hdet b Hb. destruct b as [|c1 [|c2 [|]]]; simplify_eq/=.
  unfold demo_spsolve. simpl. rewrite decide_False by done.
  eexists. split; [done|]. split; [done|].
  rewrite sp_dot_2x2. do 2 f_equal; [|f_equal]; field; done.
Qed.

Lemma cramer2_nonsingular (a11 a12 a21 a22 : Qc) :
  Qcminus (Qcmult a11 a22) (Qcmult a12 a21) <> Q2Qc 0 ->
  nonsingular (Matrix 2 2 [[a11; a12]; [a21; a22]]).
Proof.
  intros Hdet x y Hx Hy. destruct x as [|x1 [|x2 [|]]], y as [|y1 [|y2 [|]]];
    simplify_eq/=.
  rewrite !sp_dot_2x2. intros Heq.
  pose proof (f_equal (fun r => match r with Ok [p; _] => p | _ => Q2Qc 0 end) Heq) as H1.
  pose proof (f_equal (fun r => match r with Ok [_; q] => q | _ => Q2Qc 0 end) Heq) as H2.
  cbv beta iota in H1, H2. clear Heq.
  set (det := Qcminus (Qcmult a11 a22) (Qcmult a12 a21)) in *.
  assert (Hx1 : Qcmult det x1 = Qcmult det y1).
  { transitivity (Qcminus (Qcmult a22 (Qcplus (Qcmult a11 x1) (Qcplus (Qcmult a12 x2) (Q2Qc 0))))
                          (Qcmult a12 (Qcplus (Qcmult a21 x1) (Qcplus (Qcmult a22 x2) (Q2Qc 0))))).
    - unfold det. ring.
    - rewrite H1, H2. unfold det. ring. }
  assert (Hx2 : Qcmult det x2 = Qcmult det y2).
  { transitivity (Qcminus (Qcmult a11 (Qcplus (Qcmult a21 x1) (Qcplus (Qcmult a22 x2) (Q2Qc 0))))
                          (Qcmult a21 (Qcplus (Qcmult a11 x1) (Qcplus (Qcmult a12 x2) (Q2Qc 0))))).
    - unfold det. ring.
    - rewrite H1, H2. unfold det. ring. }
  assert (Hcancel : forall p q : Qc, Qcmult det p = Qcmult det q -> p = q).
  { intros p q Hpq.
    rewrite <- (Qcdiv_mult_l p det), <- (Qcdiv_mult_l q det) by done.
    by rewrite !(Qcmult_comm _ det), Hpq. }
  f_equal; [|f_equal]; by apply Hcancel.
Qed.

Lemma demo_ghost_matrix :
  exists a11 a12 a21 a22 : Qc,
    ghost_matrix demo_G = Ok (Matrix 2 2 [[a11; a12]; [a21; a22]]) /\
    Qcminus (Qcmult a11 a22) (Qcmult a12 a21) <> Q2Qc 0.
Proof.
  do 4 eexists. split; [vm_compute; reflexivity|]. compute_done.
Qed.

Lemma demo_ghost_solved : ghost_solved demo_G.
Proof.
  intros A HA. destruct demo_ghost_matrix as (a11 & a12 & a21 & a22 & HA' & Hdet).
  rewrite HA' in HA. injection HA as <-. by apply cramer2_solves.
Qed.

Lemma demo_ghost_nonsingular : ghost_nonsingular demo_G.
Proof.
  intros A HA. destruct demo_ghost_matrix as (a11 & a12 & a21 & a22 & HA' & Hdet).
  rewrite HA' in HA. injection HA as <-. by apply cramer2_nonsingular.
Qed.

Lemma axpy_length (c : Qc) (x y : list Qc) (n : nat) :
  length x = n -> length y = n -> length (axpy c x y) = n.
Proof.
  intros Hx Hy. unfold axpy. rewrite length_zip_with, Hx, Hy. apply Nat.min_id.
Qed.

Lemma demo_integrator (n : nat) : integrator_contract n.
Proof.
  intros rhs Hrhs t0 y t1 Hy. simpl. unfold demo_integrate.
  destruct (Hrhs t0 y Hy) as (k1 & -> & Hk1). simpl.
  destruct (Hrhs (Qcplus t0 (Qcdiv (Qcminus t1 t0) (Q2Qc 2)))
              (axpy (Qcdiv (Qcminus t1 t0) (Q2Qc 2)) k1 y)) as (k2 & -> & Hk2).
  { by apply axpy_length. }
  simpl.
  destruct (Hrhs (Qcplus t0 (Qcdiv (Qcminus t1 t0) (Q2Qc 2)))
              (axpy (Qcdiv (Qcminus t1 t0) (Q2Qc 2)) k2 y)) as (k3 & -> & Hk3).
  { by apply axpy_length. }
  simpl.
  destruct (Hrhs t1 (axpy (Qcminus t1 t0) k3 y)) as (k4 & -> & Hk4).
  { by apply axpy_length. }
  simpl. eexists _, _. split; [done|].
  repeat (apply axpy_length; [assumption|]). exact Hy.
Qed.

Lemma demo_reaches : integrator_reaches.
Proof.
  intros rhs [t0 y] t t' y'. simpl. unfold demo_integrate.
  destruct (rhs t0 y) as [k1|]; simpl; [|done].
  destruct (rhs _ _) as [k2|]; simpl; [|done].
  destruct (rhs _ _) as [k3|]; simpl; [|done].
  destruct (rhs _ _) as [k4|]; simpl; [|done].
  by intros [= <- _].
Qed.

Lemma demo_ghost_answered : ghost_answered demo_G.
Proof. apply ghost_solved_answered, demo_ghost_solved. Qed.

(** ** The claims on the instance *)

Lemma f_computes_witness :
  Contracts 30 /\ setup 30 = Ok demo_G /\ ghost_solved demo_G /\
  length demo_y = 2 * (length (interior demo_G) + length (boundary demo_G)) /\
  exists d w u g a,
    reshape2 demo_y = Ok (d, w) /\ demo_y = d ++ w /\ length d = length w /\
    displacement demo_G demo_junk d = Ok u /\
    length u = length (nodes demo_G) /\
    np_take u (interior demo_G ++ boundary demo_G) = Ok d /\
    np_take u (ghost demo_G) = Ok g /\
    boundary_system demo_G d g /\
    sp_dot (D demo_G) u = Ok a /\
    f demo_G demo_junk (Q2Qc 0) demo_y = Ok (np_hstack w a).
Proof.
  split_and!; [apply demo_contracts|apply demo_setup|apply demo_ghost_solved|reflexivity|].
  apply (f_computes 30 demo_G demo_junk (Q2Qc 0) demo_y
           (demo_contracts 30) demo_setup demo_ghost_solved).
  reflexivity.
Defined.

Lemma ghost_system_square_witness :
  Contracts 30 /\ setup 30 = Ok demo_G /\
  length (ghost demo_G) = length (boundary demo_G) /\
  exists A, ghost_matrix demo_G = Ok A /\ wf_matrix A /\
    nrows A = length (boundary demo_G) /\ ncols A = length (ghost demo_G) /\
    nrows A = ncols A.
Proof.
  split_and!; [apply demo_contracts|apply demo_setup|..];
    apply (ghost_system_square 30 demo_G (demo_contracts 30) demo_setup).
Defined.

Lemma f_time_independent_witness :
  Contracts 30 /\ setup 30 = Ok demo_G /\
  f demo_G demo_junk (Q2Qc 0) demo_y = f demo_G demo_junk' (Q2Qc (1 # 2)) demo_y.
Proof.
  split_and!; [apply demo_contracts|apply demo_setup|].
  apply (f_time_independent 30 demo_G demo_junk demo_junk' (Q2Qc 0) (Q2Qc (1 # 2))
           demo_y (demo_contracts 30) demo_setup).
Defined.

Lemma state_length_invariant_witness :
  Contracts 30 /\ setup 30 = Ok demo_G /\ ghost_answered demo_G /\
  integrator_contract (2 * (length (interior demo_G) + length (boundary demo_G))) /\
  (forall t y r, length y = 2 * (length (interior demo_G) + length (boundary demo_G)) ->
     f demo_G demo_junk t y = Ok r -> length r = length y) /\
  length (v demo_G) = 2 * (length (interior demo_G) + length (boundary demo_G)) /\
  (forall t y, length y = 2 * (length (interior demo_G) + length (boundary demo_G)) ->
     exists y', f demo_G demo_junk t y = Ok y' /\ length y' = length y) /\
  (forall k, exists s, after_checkpoints demo_G demo_junk k = Ok s /\
     length (integ_y s) = 2 * (length (interior demo_G) + length (boundary demo_G))).
Proof.
  destruct (state_length_invariant 30 demo_G demo_junk (demo_contracts 30) demo_setup)
    as (Hret & Hinit & Hf & Hloop).
  split; [apply demo_contracts|]. split; [apply demo_setup|].
  split; [apply demo_ghost_answered|]. split; [apply demo_integrator|].
  split; [exact Hret|]. split; [exact Hinit|].
  split; [exact (Hf demo_ghost_answered)|].
  exact (Hloop demo_ghost_answered (demo_integrator _)).
Defined.

Lemma zero_fixed_point_witness :
  Contracts 30 /\ setup 30 = Ok demo_G /\ ghost_solved demo_G /\
  ghost_nonsingular demo_G /\
  f demo_G demo_junk (Q2Qc (1 # 2))
    (np_zeros (2 * (length (interior demo_G) + length (boundary demo_G))))
  = Ok (np_zeros (2 * (length (interior demo_G) + length (boundary demo_G)))).
Proof.
  split_and!;
    [apply demo_contracts|apply demo_setup|apply demo_ghost_solved
    |apply demo_ghost_nonsingular|].
  apply (zero_fixed_point 30 demo_G demo_junk (Q2Qc (1 # 2)) (demo_contracts 30)
           demo_setup demo_ghost_solved demo_ghost_nonsingular).
Defined.

Lemma f_linear_witness :
  Contracts 30 /\ setup 30 = Ok demo_G /\ ghost_solved demo_G /\
  ghost_nonsingular demo_G /\ length demo_y = 60 /\ length demo_y' = 60 /\
  exists o1 o2 w o,
    f demo_G demo_junk (Q2Qc 1) demo_y = Ok o1 /\
    f demo_G demo_junk' (Q2Qc 1) demo_y' = Ok o2 /\
    lincomb (Q2Qc (2 # 3)) demo_y (Q2Qc (-5 # 1)) demo_y' = Ok w /\
    f demo_G demo_junk (Q2Qc 1) w = Ok o /\
    lincomb (Q2Qc (2 # 3)) o1 (Q2Qc (-5 # 1)) o2 = Ok o.
Proof.
  split_and!;
    [apply demo_contracts|apply demo_setup|apply demo_ghost_solved
    |apply demo_ghost_nonsingular|reflexivity|reflexivity|].
  apply (f_linear 30 demo_G demo_junk demo_junk' demo_junk (Q2Qc 1)
           (Q2Qc (2 # 3)) (Q2Qc (-5 # 1)) demo_y demo_y'
           (demo_contracts 30) demo_setup demo_ghost_solved demo_ghost_nonsingular);
    reflexivity.
Defined.

Lemma boundary_consistency_witness :
  Contracts 30 /\ setup 30 = Ok demo_G /\ ghost_solved demo_G /\
  ghost_nonsingular demo_G /\
  length demo_u_full = length (nodes demo_G) /\
  sp_dot (dD demo_G) demo_u_full = Ok (u_bnd demo_G) /\
  np_take demo_u_full (interior demo_G ++ boundary demo_G) = Ok (take 30 demo_y) /\
  np_take demo_u_full (ghost demo_G) = Ok (drop 30 demo_u_full) /\
  ghost_values demo_G (take 30 demo_y) = Ok (drop 30 demo_u_full) /\
  exists u r,
    displacement demo_G demo_junk' (take 30 demo_y) = Ok u /\ u = demo_u_full /\
    sp_dot (dD demo_G) u = Ok r /\
    np_sub r (u_bnd demo_G) = Ok (np_zeros (length (boundary demo_G))).
Proof.
  assert (H1 : length demo_u_full = length (nodes demo_G)) by reflexivity.
  assert (H2 : sp_dot (dD demo_G) demo_u_full = Ok (u_bnd demo_G)) by compute_done.
  assert (H3 : np_take demo_u_full (interior demo_G ++ boundary demo_G)
               = Ok (take 30 demo_y)) by compute_done.
  assert (H4 : np_take demo_u_full (ghost demo_G) = Ok (drop 30 demo_u_full))
    by compute_done.
  split_and!;
    [apply demo_contracts|apply demo_setup|apply demo_ghost_solved
    |apply demo_ghost_nonsingular|exact H1|exact H2|exact H3|exact H4|..];
    apply (boundary_consistency 30 demo_G demo_junk' demo_u_full (take 30 demo_y)
             (drop 30 demo_u_full) (demo_contracts 30) demo_setup demo_ghost_solved
             demo_ghost_nonsingular H1 H2 H3 H4).
Defined.

Lemma demo_binds : binds demo_names demo_store demo_G.
Proof. by constructor. Qed.

Lemma f_store_frame_witness :
  binds demo_names demo_store demo_G /\
  demo_store !! 7 = Some (OArray demo_y) /\
  binds demo_names (f_store demo_names demo_junk (Q2Qc 0) 7 demo_store).2 demo_G /\
  (f_store demo_names demo_junk (Q2Qc 0) 7 demo_store).2 !! 7 = Some (OArray demo_y) /\
  (forall l o, demo_store !! l = Some o ->
     (f_store demo_names demo_junk (Q2Qc 0) 7 demo_store).2 !! l = Some o) /\
  (f_store demo_names demo_junk (Q2Qc 0) 7 demo_store).1
  = f demo_G demo_junk (Q2Qc 0) demo_y /\
  (forall names2 ts l o,
     l ≠ integrator_at names2 -> l ≠ soln_at names2 -> demo_store !! l = Some o ->
     (loop_store demo_names demo_junk names2 ts demo_store).2 !! l = Some o).
Proof.
  split; [apply demo_binds|]. split; [reflexivity|].
  exact (f_store_frame demo_names demo_G demo_junk (Q2Qc 0) 7 demo_y demo_store
           demo_binds eq_refl).
Defined.

Lemma ghost_nodes_construction_witness :
  Contracts 30 /\ setup 30 = Ok demo_G /\
  exists nodes0 ids edge_normals idx dist,
    menodes 30 vert smp = Ok (nodes0, ids) /\
    simplex_outward_normals vert smp = Ok edge_normals /\
    neighbors nodes0 2 = Ok (idx, dist) /\
    length nodes0 = 30 /\
    take 30 (nodes demo_G) = nodes0 /\
    length (nodes demo_G) = 30 + length (boundary demo_G) /\
    ghost demo_G = seq 30 (length (boundary demo_G)) /\
    (forall k b, boundary demo_G !! k = Some b ->
       exists p e n,
         nodes0 !! b = Some p /\ ids !! b = Some e /\
         py_index edge_normals e = Ok n /\
         ghost demo_G !! k = Some (30 + k) /\
         nodes demo_G !! (30 + k)
         = Some (pt_add p (pt_scale (rmul (rlit (1#2)) (dx demo_G)) n))) /\
    length dist = 30 /\
    (exists i row, dist !! i = Some row /\ row !! 1 = Some (dx demo_G)) /\
    (forall i row d, dist !! i = Some row -> row !! 1 = Some d ->
       rleb (dx demo_G) d = true).
Proof.
  split_and!; [apply demo_contracts|apply demo_setup|].
  apply (ghost_nodes_construction 30 demo_G (demo_contracts 30) demo_setup).
Defined.

End DemoFacts.

(** * The further properties on the instances *)

Module MoreFacts.
Import Demo Variants DemoFacts.

Lemma variant_contracts mn wm sv (N : nat) :
  (forall nodes0 ids, mn N vert smp = Ok (nodes0, ids) ->
     length nodes0 = N /\ length ids = N /\ Forall (fun s => (-1 <= s)%Z) ids) ->
  (forall x p diffs coeffs n M, wm x p diffs coeffs n = Ok M ->
     wf_matrix M /\ nrows M = length x /\ ncols M = length p) ->
  @Contracts _ (variant mn wm sv) N.
Proof.
  intros Hmn Hwm. split; simpl; [exact Hmn| |exact Hwm].
  intros x k idx dist. unfold demo_neighbors. case_decide; [|done].
  intros [= <- <-]. by rewrite length_map.
Qed.

Lemma ones_weight_matrix_shape x p diffs coeffs n M :
  ones_weight_matrix x p diffs coeffs n = Ok M ->
  wf_matrix M /\ nrows M = length x /\ ncols M = length p.
Proof.
  unfold ones_weight_matrix. case_decide; [|done]. intros [= <-].
  split_and!; try done. split; simpl; [by rewrite length_map|].
  apply Forall_forall. intros r (xi & -> & _)%list_elem_of_fmap. by rewrite length_map.
Qed.

Lemma singular_contracts (N : nat) : @Contracts _ singular_externals N.
Proof.
  apply variant_contracts; [|apply ones_weight_matrix_shape].
  exact (@menodes_shape _ demo_externals N (demo_contracts N)).
Qed.

Lemma lenient_contracts (N : nat) : @Contracts _ lenient_externals N.
Proof.
  apply variant_contracts; [|apply ones_weight_matrix_shape].
  exact (@menodes_shape _ demo_externals N (demo_contracts N)).
Qed.

Lemma singular_setup : @setup _ singular_externals 30 = Ok singular_G.
Proof. vm_cast_no_check (eq_refl (Ok singular_G)). Qed.

Lemma lenient_setup : @setup _ lenient_externals 30 = Ok singular_G.
Proof. vm_cast_no_check (eq_refl (Ok singular_G)). Qed.

Lemma node_classification_witness :
  setup 30 = Ok demo_G /\
  (forall i, i ∈ interior demo_G <-> smpid demo_G !! i = Some (-1)%Z) /\
  (forall i, i ∈ boundary demo_G <->
     exists s, smpid demo_G !! i = Some s /\ (0 <= s)%Z) /\
  (forall i, i ∈ interior demo_G -> i ∉ boundary demo_G) /\
  StronglySorted lt (interior demo_G) /\ StronglySorted lt (boundary demo_G).
Proof.
  split; [apply demo_setup|]. exact (node_classification 30 demo_G demo_setup).
Defined.

Lemma nodes_partition_witness :
  Contracts 30 /\ setup 30 = Ok demo_G /\
  interior demo_G ++ boundary demo_G ≡ₚ seq 0 30 /\
  length (interior demo_G) + length (boundary demo_G) = 30 /\
  (forall i, i < 30 -> i ∈ interior demo_G \/ i ∈ boundary demo_G) /\
  (forall i, i ∈ interior demo_G ++ boundary demo_G -> i < 30).
Proof.
  split; [apply demo_contracts|]. split; [apply demo_setup|].
  exact (nodes_partition 30 demo_G (demo_contracts 30) demo_setup).
Defined.

Lemma operator_shapes_witness :
  Contracts 30 /\ setup 30 = Ok demo_G /\
  length (normals demo_G) = length (boundary demo_G) /\
  wf_matrix (D demo_G) /\ nrows (D demo_G) = 30 /\
  ncols (D demo_G) = 30 + length (boundary demo_G) /\
  wf_matrix (dD demo_G) /\ nrows (dD demo_G) = length (boundary demo_G) /\
  ncols (dD demo_G) = 30 + length (boundary demo_G) /\
  (forall u, length u = 30 + length (boundary demo_G) ->
     exists a, sp_dot (D demo_G) u = Ok a /\ length a = 30) /\
  (forall u, length u <> 30 + length (boundary demo_G) ->
     sp_dot (D demo_G) u = Raise ValueError).
Proof.
  split; [apply demo_contracts|]. split; [apply demo_setup|].
  exact (operator_shapes 30 demo_G (demo_contracts 30) demo_setup).
Defined.

Lemma setup_returns_witness :
  Contracts 30 /\ Returns 30 /\ 30 <= 30 /\ exists G, setup 30 = Ok G.
Proof.
  split; [apply demo_contracts|]. split; [apply demo_returns|]. split; [done|].
  exact (setup_returns 30 (demo_contracts 30) (demo_returns 30) (le_n 30)).
Defined.

Lemma setup_needs_nodes_witness :
  Contracts 0 /\ exists e, setup 0 = Raise e.
Proof.
  split; [apply demo_contracts|]. exact (setup_needs_nodes (demo_contracts 0)).
Defined.

Lemma setup_bad_tag_witness :
  @menodes _ far_externals 30 vert smp
  = Ok (map grid_node (seq 0 30), map far_tag (seq 0 30)) /\
  @simplex_outward_normals _ far_externals vert smp = Ok demo_edge_normals /\
  map far_tag (seq 0 30) !! 5 = Some 9%Z /\
  (Z.of_nat (length demo_edge_normals) <= 9)%Z /\
  @setup _ far_externals 30 = Raise IndexError.
Proof.
  assert (H1 : @menodes _ far_externals 30 vert smp
               = Ok (map grid_node (seq 0 30), map far_tag (seq 0 30))) by reflexivity.
  assert (H2 : @simplex_outward_normals _ far_externals vert smp = Ok demo_edge_normals)
    by (vm_compute; reflexivity).
  assert (H3 : map far_tag (seq 0 30) !! 5 = Some 9%Z) by reflexivity.
  assert (H4 : (Z.of_nat (length demo_edge_normals) <= 9)%Z) by (vm_compute; discriminate).
  split; [exact H1|]. split; [exact H2|]. split; [exact H3|]. split; [exact H4|].
  exact (@setup_bad_tag _ far_externals 30 _ _ _ 5 9%Z H1 H2 H3 H4).
Defined.

Lemma f_wrong_length_witness :
  Contracts 30 /\ setup 30 = Ok demo_G /\
  length (take 2 demo_y)
  <> 2 * (length (interior demo_G) + length (boundary demo_G)) /\
  f demo_G demo_junk (Q2Qc 0) (take 2 demo_y) = Raise ValueError.
Proof.
  assert (H : length (take 2 demo_y)
              <> 2 * (length (interior demo_G) + length (boundary demo_G)))
    by (vm_compute; discriminate).
  split; [apply demo_contracts|]. split; [apply demo_setup|]. split; [exact H|].
  exact (f_wrong_length 30 demo_G demo_junk (Q2Qc 0) (take 2 demo_y)
           (demo_contracts 30) demo_setup H).
Defined.

Lemma singular_ghost_matrix :
  ghost_matrix singular_G
  = Ok (Matrix 2 2 [[Q2Qc 1; Q2Qc 1]; [Q2Qc 1; Q2Qc 1]]).
Proof. vm_compute. reflexivity. Qed.

Lemma solver_failure_propagates_witness :
  @Contracts _ singular_externals 30 /\
  @setup _ singular_externals 30 = Ok singular_G /\
  length demo_y = 2 * (length (interior singular_G) + length (boundary singular_G)) /\
  (forall A K k b,
     ghost_matrix singular_G = Ok A ->
     sp_cols (dD singular_G) (interior singular_G ++ boundary singular_G) = Ok K ->
     sp_dot K (take (length (interior singular_G) + length (boundary singular_G)) demo_y)
     = Ok k ->
     np_sub (u_bnd singular_G) k = Ok b ->
     @spsolve _ singular_externals A b = Raise LibraryError) /\
  @f _ singular_externals singular_G demo_junk (Q2Qc 0) demo_y = Raise LibraryError.
Proof.
  assert (H : forall A K k b,
     ghost_matrix singular_G = Ok A ->
     sp_cols (dD singular_G) (interior singular_G ++ boundary singular_G) = Ok K ->
     sp_dot K (take (length (interior singular_G) + length (boundary singular_G)) demo_y)
     = Ok k ->
     np_sub (u_bnd singular_G) k = Ok b ->
     @spsolve _ singular_externals A b = Raise LibraryError).
  { intros A K k b HA _ _ _. rewrite singular_ghost_matrix in HA. injection HA as <-.
    by destruct b as [|b1 [|b2 [|b3 b]]]. }
  split; [apply singular_contracts|]. split; [apply singular_setup|].
  split; [reflexivity|]. split; [exact H|].
  exact (@solver_failure_propagates _ singular_externals 30 singular_G demo_junk
           (Q2Qc 0) demo_y LibraryError (singular_contracts 30) singular_setup
           eq_refl H).
Defined.

Lemma solver_answer_unchecked_witness :
  @Contracts _ lenient_externals 30 /\
  @setup _ lenient_externals 30 = Ok singular_G /\
  length demo_y = 2 * (length (interior singular_G) + length (boundary singular_G)) /\
  length [Q2Qc 1; Q2Qc 1] = length (boundary singular_G) /\
  (forall A K k b,
     ghost_matrix singular_G = Ok A ->
     sp_cols (dD singular_G) (interior singular_G ++ boundary singular_G) = Ok K ->
     sp_dot K (take (length (interior singular_G) + length (boundary singular_G)) demo_y)
     = Ok k ->
     np_sub (u_bnd singular_G) k = Ok b ->
     @spsolve _ lenient_externals A b = Ok [Q2Qc 1; Q2Qc 1]) /\
  exists u a,
    @displacement _ lenient_externals singular_G demo_junk
      (take (length (interior singular_G) + length (boundary singular_G)) demo_y) = Ok u /\
    np_take u (ghost singular_G) = Ok [Q2Qc 1; Q2Qc 1] /\
    sp_dot (D singular_G) u = Ok a /\
    @f _ lenient_externals singular_G demo_junk (Q2Qc 0) demo_y
    = Ok (np_hstack
            (drop (length (interior singular_G) + length (boundary singular_G)) demo_y) a).
Proof.
  assert (H : forall A K k b,
     ghost_matrix singular_G = Ok A ->
     sp_cols (dD singular_G) (interior singular_G ++ boundary singular_G) = Ok K ->
     sp_dot K (take (length (interior singular_G) + length (boundary singular_G)) demo_y)
     = Ok k ->
     np_sub (u_bnd singular_G) k = Ok b ->
     @spsolve _ lenient_externals A b = Ok [Q2Qc 1; Q2Qc 1]).
  { intros A K k b HA _ _ _. rewrite singular_ghost_matrix in HA. injection HA as <-.
    reflexivity. }
  split; [apply lenient_contracts|]. split; [apply lenient_setup|].
  split; [reflexivity|]. split; [reflexivity|]. split; [exact H|].
  exact (@solver_answer_unchecked _ lenient_externals 30 singular_G demo_junk
           (Q2Qc 0) demo_y [Q2Qc 1; Q2Qc 1] (lenient_contracts 30) lenient_setup
           eq_refl eq_refl H).
Defined.

Lemma boundary_condition_enforced_witness :
  Contracts 30 /\ setup 30 = Ok demo_G /\ ghost_solved demo_G /\
  length demo_y = 2 * (length (interior demo_G) + length (boundary demo_G)) /\
  exists d w u,
    reshape2 demo_y = Ok (d, w) /\
    displacement demo_G demo_junk d = Ok u /\
    sp_dot (dD demo_G) u = Ok (u_bnd demo_G) /\
    u_bnd demo_G = np_zeros (length (boundary demo_G)).
Proof.
  split; [apply demo_contracts|]. split; [apply demo_setup|].
  split; [apply demo_ghost_solved|]. split; [reflexivity|].
  exact (boundary_condition_enforced 30 demo_G demo_junk demo_y (demo_contracts 30)
           demo_setup demo_ghost_solved eq_refl).
Defined.

Lemma solution_collected_witness :
  Contracts 30 /\ setup 30 = Ok demo_G /\ ghost_answered demo_G /\
  integrator_contract (2 * (length (interior demo_G) + length (boundary demo_G))) /\
  integrator_reaches /\
  exists s targets,
    integrate_all demo_G demo_junk = Ok s /\
    length (soln s) = length (drop 1 times) /\
    np_take (nodes demo_G) (interior demo_G ++ boundary demo_G) = Ok targets /\
    Forall (fun d => length d = length targets) (soln s) /\
    (forall k t, times !! S k = Some t ->
       exists s1 s2,
         after_checkpoints demo_G demo_junk k = Ok s1 /\
         after_checkpoints demo_G demo_junk (S k) = Ok s2 /\
         ode_integrate (f demo_G demo_junk) (integ_t s1, integ_y s1) t
         = Ok (integ_t s2, integ_y s2) /\
         soln s2 = soln s1 ++ [take (length targets) (integ_y s2)] /\
         integ_t s2 = t) /\
    last times = Some (integ_t s).
Proof.
  split; [apply demo_contracts|]. split; [apply demo_setup|].
  split; [apply demo_ghost_answered|]. split; [apply demo_integrator|].
  split; [apply demo_reaches|].
  destruct (solution_collected 30 demo_G demo_junk (demo_contracts 30) demo_setup
              demo_ghost_answered (demo_integrator _))
    as (s & targets & Hs & Hn & Htar & Hall & Hpass & Hlast).
  exists s, targets. split; [exact Hs|]. split; [exact Hn|]. split; [exact Htar|].
  split; [exact Hall|]. split; [|exact (Hlast demo_reaches)].
  intros k t Hk. destruct (Hpass k t Hk) as (s1 & s2 & H1 & H2 & Hint & Hsoln & Ht).
  exists s1, s2. split; [exact H1|]. split; [exact H2|]. split; [exact Hint|].
  split; [exact Hsoln|]. exact (Ht demo_reaches).
Defined.

Lemma initial_state_at_rest_witness :
  Contracts 30 /\ setup 30 = Ok demo_G /\ ghost_answered demo_G /\
  length (u_init demo_G) = 30 /\
  reshape2 (v demo_G) = Ok (u_init demo_G, np_zeros 30) /\
  (forall r, f demo_G demo_junk (Q2Qc 0) (v demo_G) = Ok r ->
     exists a, length a = 30 /\ r = np_hstack (np_zeros 30) a) /\
  exists a, length a = 30 /\
    f demo_G demo_junk (Q2Qc 0) (v demo_G) = Ok (np_hstack (np_zeros 30) a).
Proof.
  destruct (initial_state_at_rest 30 demo_G demo_junk (Q2Qc 0) (demo_contracts 30)
              demo_setup) as (Hl & Hsplit & Hret & Hans).
  split; [apply demo_contracts|]. split; [apply demo_setup|].
  split; [apply demo_ghost_answered|]. split; [exact Hl|]. split; [exact Hsplit|].
  split; [exact Hret|]. exact (Hans demo_ghost_answered).
Defined.

Lemma acceleration_ignores_velocity_witness :
  Contracts 30 /\ setup 30 = Ok demo_G /\ ghost_answered demo_G /\
  length (take 30 demo_y) = length (interior demo_G) + length (boundary demo_G) /\
  length (drop 30 demo_y) = length (take 30 demo_y) /\
  length (drop 30 demo_y') = length (take 30 demo_y) /\
  exists r,
    f demo_G demo_junk (Q2Qc 0) (take 30 demo_y ++ drop 30 demo_y) = Ok r /\
    take (length (take 30 demo_y)) r = drop 30 demo_y /\
    length (drop (length (take 30 demo_y)) r) = length (take 30 demo_y) /\
    f demo_G demo_junk (Q2Qc 0) (take 30 demo_y ++ drop 30 demo_y')
    = Ok (np_hstack (drop 30 demo_y') (drop (length (take 30 demo_y)) r)).
Proof.
  destruct (acceleration_ignores_velocity 30 demo_G demo_junk (Q2Qc 0) (take 30 demo_y)
              (drop 30 demo_y) (drop 30 demo_y') (demo_contracts 30) demo_setup
              eq_refl eq_refl eq_refl) as (Hret & _ & Hans).
  split; [apply demo_contracts|]. split; [apply demo_setup|].
  split; [apply demo_ghost_answered|].
  split; [reflexivity|]. split; [reflexivity|]. split; [reflexivity|].
  destruct (Hans demo_ghost_answered) as (r & Hr).
  exists r. split; [exact Hr|]. exact (Hret r Hr).
Defined.

(** The ghost matrix of the variant is singular: it sends two different
    arrays to the same one. *)
Lemma singular_G_singular : ~ ghost_nonsingular singular_G.
Proof.
  intros Hns.
  specialize (Hns _ singular_ghost_matrix [Q2Qc 1; Q2Qc 0] [Q2Qc 0; Q2Qc 1]
                eq_refl eq_refl).
  assert (Heq : [Q2Qc 1; Q2Qc 0] = [Q2Qc 0; Q2Qc 1]) by (apply Hns; compute_done).
  discriminate Heq.
Qed.

Lemma solver_outcome_surfaces_witness :
  @Contracts _ lenient_externals 30 /\
  @setup _ lenient_externals 30 = Ok singular_G /\
  length demo_y = 2 * (length (interior singular_G) + length (boundary singular_G)) /\
  exists A K k b,
    ghost_matrix singular_G = Ok A /\
    sp_cols (dD singular_G) (interior singular_G ++ boundary singular_G) = Ok K /\
    sp_dot K (take (length (interior singular_G) + length (boundary singular_G)) demo_y)
    = Ok k /\
    np_sub (u_bnd singular_G) k = Ok b /\
    (forall e, @spsolve _ lenient_externals A b = Raise e ->
       @f _ lenient_externals singular_G demo_junk (Q2Qc 0) demo_y = Raise e) /\
    (forall x, @spsolve _ lenient_externals A b = Ok x ->
       length x = length (ghost singular_G) ->
       exists u a,
         @displacement _ lenient_externals singular_G demo_junk
           (take (length (interior singular_G) + length (boundary singular_G)) demo_y)
         = Ok u /\
         np_take u (ghost singular_G) = Ok x /\
         sp_dot (D singular_G) u = Ok a /\
         @f _ lenient_externals singular_G demo_junk (Q2Qc 0) demo_y
         = Ok (np_hstack
                 (drop (length (interior singular_G) + length (boundary singular_G)) demo_y)
                 a)) /\
    (forall e, @f _ lenient_externals singular_G demo_junk (Q2Qc 0) demo_y = Raise e ->
       @spsolve _ lenient_externals A b = Raise e \/
       exists x, @spsolve _ lenient_externals A b = Ok x /\
         length x <> length (ghost singular_G)).
Proof.
  split; [apply lenient_contracts|]. split; [apply lenient_setup|].
  split; [reflexivity|].
  exact (@solver_outcome_surfaces _ lenient_externals 30 singular_G demo_junk (Q2Qc 0)
           demo_y (lenient_contracts 30) lenient_setup eq_refl).
Defined.

(** C2, as the claim states it, fails: on the variant the ghost matrix is
    singular, the solver answers all the same, and the call of [f]
    raises nothing: it returns a derivative vector, computed from a
    displacement array that does not meet the boundary condition. *)
Lemma singular_system_returns :
  @Contracts _ lenient_externals 30 /\
  @setup _ lenient_externals 30 = Ok singular_G /\
  length demo_y = 2 * (length (interior singular_G) + length (boundary singular_G)) /\
  ~ ghost_nonsingular singular_G /\
  (exists u c a,
     @displacement _ lenient_externals singular_G demo_junk (take 30 demo_y) = Ok u /\
     sp_dot (dD singular_G) u = Ok c /\ c <> u_bnd singular_G /\
     sp_dot (D singular_G) u = Ok a /\
     @f _ lenient_externals singular_G demo_junk (Q2Qc 0) demo_y
     = Ok (np_hstack (drop 30 demo_y) a)) /\
  ~ (exists e, @f _ lenient_externals singular_G demo_junk (Q2Qc 0) demo_y = Raise e).
Proof.
  assert (Hf : exists u c a,
     @displacement _ lenient_externals singular_G demo_junk (take 30 demo_y) = Ok u /\
     sp_dot (dD singular_G) u = Ok c /\ c <> u_bnd singular_G /\
     sp_dot (D singular_G) u = Ok a /\
     @f _ lenient_externals singular_G demo_junk (Q2Qc 0) demo_y
     = Ok (np_hstack (drop 30 demo_y) a)).
  { eexists _, _, _. split; [vm_compute; reflexivity|].
    split; [vm_compute; reflexivity|]. split; [vm_compute; discriminate|].
    split; [vm_compute; reflexivity|]. vm_compute. reflexivity. }
  split; [apply lenient_contracts|]. split; [apply lenient_setup|].
  split; [reflexivity|]. split; [apply singular_G_singular|]. split; [exact Hf|].
  destruct Hf as (u & c & a & _ & _ & _ & _ & Hr). intros [e He].
  rewrite Hr in He. discriminate He.
Qed.

End MoreFacts.
